(** * Verification of the Cowork patch scripts

    Shallow embedding of [patches/enable-cowork.py] and
    [patches/inject-cowork-bridge.py].

    A Python [str] is a sequence of Unicode code points: it is modelled as a
    list of [N].  [print] output is a list of lines, the file is the text that
    [f.read()] returned together with the text handed to [f.write], if any. *)

From Stdlib Require Import List ZArith NArith Lia Bool Arith String Ascii.
Import ListNotations.

Set Implicit Arguments.

(* ================================================================== *)
(** * Part I: definitions *)
(* ================================================================== *)

(** ** Python strings *)

Module Py.

Definition chr := N.
Definition str := list chr.

(** Source literals are written between Rocq string quotes with an
    apostrophe standing for the JavaScript double quote (no literal of the
    two scripts contains an apostrophe): [lit "status:'supported'"] is the
    Python literal [status:"supported"]. *)
Definition of_ascii (a : ascii) : chr :=
  if Ascii.eqb a "'"%char then 34%N else N_of_ascii a.

Definition lit (s : string) : str := List.map of_ascii (list_ascii_of_string s).

Definition len (s : str) : nat := List.length s.

(** [s[i:j]] for offsets [0 <= i], [0 <= j]. *)
Definition slice (s : str) (i j : nat) : str := firstn (j - i) (skipn i s).

(** [s.startswith(t)] *)
Fixpoint startswith (t s : str) : bool :=
  match t, s with
  | [], _ => true
  | _ :: _, [] => false
  | a :: t', b :: s' => N.eqb a b && startswith t' s'
  end.

(** [s.find(sub)]: lowest offset at which [sub] occurs, [None] for -1. *)
Fixpoint find (sub s : str) : option nat :=
  if startswith sub s then Some 0
  else match s with
       | [] => None
       | _ :: s' => option_map S (find sub s')
       end.

(** [sub in s] *)
Definition contains (sub s : str) : bool :=
  match find sub s with Some _ => true | None => false end.

(** [s.replace(old, new)] for a non-empty [old]: every occurrence found by a
    left-to-right scan that resumes after the occurrence just replaced.
    [skip] counts the characters of that occurrence still to be dropped. *)
Fixpoint replace_from (old new : str) (skip : nat) (s : str) : str :=
  match s with
  | [] => []
  | c :: s' =>
      match skip with
      | S k => replace_from old new k s'
      | O => if startswith old s
             then new ++ replace_from old new (len old - 1) s'
             else c :: replace_from old new 0 s'
      end
  end.

(** With an empty [old] Python puts [new] before every character and at the
    end. *)
Fixpoint interleave (new s : str) : str :=
  match s with
  | [] => new
  | c :: s' => new ++ c :: interleave new s'
  end.

Definition replace (old new s : str) : str :=
  match old with
  | [] => interleave new s
  | _ :: _ => replace_from old new 0 s
  end.

(** [s.replace(old, new, 1)]: the first occurrence only. *)
Definition replace1 (old new s : str) : str :=
  match find old s with
  | Some i => firstn i s ++ new ++ skipn (i + len old) s
  | None => s
  end.

(** [s.count(sub)] for a non-empty [sub]: non-overlapping occurrences. *)
Fixpoint count_from (sub : str) (skip : nat) (s : str) : nat :=
  match s with
  | [] => 0
  | _ :: s' =>
      match skip with
      | S k => count_from sub k s'
      | O => if startswith sub s
             then S (count_from sub (len sub - 1) s')
             else count_from sub 0 s'
      end
  end.

Definition count (sub s : str) : nat :=
  match sub with
  | [] => S (len s)
  | _ :: _ => count_from sub 0 s
  end.

(** [';'.join(parts)] *)
Fixpoint join (sep : str) (parts : list str) : str :=
  match parts with
  | [] => []
  | [p] => p
  | p :: ps => p ++ sep ++ join sep ps
  end.

(** [str(n)] for a natural number, as an f-string prints a count. *)
Fixpoint digits (fuel n : nat) (acc : str) : str :=
  match fuel with
  | O => acc
  | S f =>
      let acc' := N.of_nat (48 + n mod 10) :: acc in
      if n <? 10 then acc' else digits f (n / 10) acc'
  end.

Definition str_of_nat (n : nat) : str := digits (S n) n [].

End Py.

Import Py.

(** ** The regular expressions of the two scripts

    Python's [re] is a backtracking matcher.  [matches r s g] lists, in the
    order in which backtracking tries them, every way [r] can match a prefix
    of [s] when the groups captured so far are [g]: each entry is the text
    left after the match and the groups after it.  The match [re] reports at
    an offset is the first entry.  Only the constructs that the four patterns
    of the scripts use are present. *)

Module Re.

(** The character classes of the patterns: [\w], [\s] and [[0-9a-f]]. *)
Inductive cclass := Word | Space | Hex.

Inductive regex :=
| Lit (t : str)                 (* escaped or plain literal characters *)
| Plus (c : cclass)             (* [c+], greedy *)
| Rep (c : cclass) (n : nat)    (* [c{n}] *)
| Alt (r1 r2 : regex)           (* [(?:r1|r2)] *)
| Cat (r1 r2 : regex)           (* [r1 r2] *)
| Group (k : nat) (r : regex)   (* [(r)], the k-th capturing group *)
| Backref (k : nat).            (* [\k] *)

Declare Scope regex_scope.
Delimit Scope regex_scope with re.
Bind Scope regex_scope with regex.
Infix ";;" := Cat (at level 61, right associativity) : regex_scope.

Definition groups := list (nat * str).

Fixpoint get (k : nat) (g : groups) : option str :=
  match g with
  | [] => None
  | (k', t) :: g' => if Nat.eqb k k' then Some t else get k g'
  end.

(** What [re.search] and [re.finditer] return: [m.start()], [m.end()] and
    the captured groups. *)
Record rmatch := { m_start : nat; m_end : nat; m_groups : groups }.

(** [m.group(k)] for a group that took part in the match. *)
Definition group (k : nat) (m : rmatch) : str :=
  match get k (m_groups m) with Some t => t | None => [] end.

Definition between (lo hi c : N) : bool := (N.leb lo c && N.leb c hi)%bool.

Definition ascii_alnum (c : chr) : bool :=
  between 48 57 c || between 65 90 c || between 97 122 c.

(** [[0-9a-f]] *)
Definition is_hex (c : chr) : bool := between 48 57 c || between 97 102 c.

(** [\s] on a [str] pattern: the code points for which [str.isspace()]
    holds. *)
Definition is_space (c : chr) : bool :=
  between 9 13 c || between 28 32 c || N.eqb c 133 || N.eqb c 160
  || N.eqb c 5760 || between 8192 8202 c || N.eqb c 8232 || N.eqb c 8233
  || N.eqb c 8239 || N.eqb c 8287 || N.eqb c 12288.

Section Unicode.

(** [\w] on a [str] pattern is [[a-zA-Z0-9_]] on ASCII and, beyond ASCII,
    the code points for which [str.isalnum()] holds.  That table belongs to
    the interpreter's Unicode database: it is a parameter. *)
Variable uni_alnum : chr -> bool.

Definition is_word (c : chr) : bool :=
  if N.ltb c 128 then ascii_alnum c || N.eqb c 95 else uni_alnum c.

Definition in_class (c : cclass) : chr -> bool :=
  match c with
  | Word => is_word
  | Space => is_space
  | Hex => is_hex
  end.

(** The texts left by [c+], longest match first. *)
Fixpoint plus_rests (p : chr -> bool) (s : str) : list str :=
  match s with
  | [] => []
  | c :: s' => if p c then plus_rests p s' ++ [s'] else []
  end.

(** The text left by [c{n}]. *)
Fixpoint rep_rest (p : chr -> bool) (n : nat) (s : str) : option str :=
  match n with
  | O => Some s
  | S n' =>
      match s with
      | [] => None
      | c :: s' => if p c then rep_rest p n' s' else None
      end
  end.

Fixpoint matches (r : regex) (s : str) (g : groups) : list (str * groups) :=
  match r with
  | Lit t => if startswith t s then [(skipn (len t) s, g)] else []
  | Plus c => List.map (fun s' => (s', g)) (plus_rests (in_class c) s)
  | Rep c n =>
      match rep_rest (in_class c) n s with
      | Some s' => [(s', g)]
      | None => []
      end
  | Alt r1 r2 => matches r1 s g ++ matches r2 s g
  | Cat r1 r2 =>
      flat_map (fun x => matches r2 (fst x) (snd x)) (matches r1 s g)
  | Group k r1 =>
      List.map (fun x => (fst x, (k, firstn (len s - len (fst x)) s) :: snd x))
               (matches r1 s g)
  | Backref k =>
      match get k g with
      | Some t => if startswith t s then [(skipn (len t) s, g)] else []
      | None => []
      end
  end.

(** [r.search(content)]: the match at the lowest offset that has one.  [s] is
    the text from offset [pos] on. *)
Fixpoint search_from (r : regex) (pos : nat) (s : str) : option rmatch :=
  match matches r s [] with
  | (rest, g) :: _ =>
      Some {| m_start := pos; m_end := pos + (len s - len rest); m_groups := g |}
  | [] =>
      match s with
      | [] => None
      | _ :: s' => search_from r (S pos) s'
      end
  end.

Definition search (r : regex) (content : str) : option rmatch :=
  search_from r 0 content.

(** [r.finditer(content)]: the successive non-overlapping matches.  [skip]
    counts the characters of the last match still to be passed.  (None of the
    patterns can match the empty text, so the rule of [re] for empty matches
    is not needed.) *)
Fixpoint finditer_from (r : regex) (skip pos : nat) (s : str) : list rmatch :=
  match skip, s with
  | S k, [] => []
  | S k, _ :: s' => finditer_from r k (S pos) s'
  | O, _ =>
      match matches r s [] with
      | (rest, g) :: _ =>
          let n := len s - len rest in
          {| m_start := pos; m_end := pos + n; m_groups := g |}
          :: match s with
             | [] => []
             | _ :: s' => finditer_from r (n - 1) (S pos) s'
             end
      | [] =>
          match s with
          | [] => []
          | _ :: s' => finditer_from r 0 (S pos) s'
          end
      end
  end.

Definition finditer (r : regex) (content : str) : list rmatch :=
  finditer_from r 0 0 content.

End Unicode.

End Re.

Import Re.
Local Open Scope regex_scope.

(** ** What a run of a script does *)

(** [ret] is the value the patch function returns, [printed] has one entry
    per [print] call, [written] is the text given to [f.write], if the run
    got there.  The file is the text [content] that [f.read()] returned. *)
Record run := { ret : bool; printed : list str; written : option str }.

(** The text of the file once the run is over. *)
Definition file_after (content : str) (r : run) : str :=
  match written r with Some c => c | None => content end.

(** The process: [sys.exit] status, what was printed, what was written. *)
Record process := { exit_status : Z; stdout : list str; file_write : option str }.

(** [sys.exit(0 if success else 1)] *)
Definition exit_of (r : run) : process :=
  {| exit_status := if ret r then 0%Z else 1%Z;
     stdout := printed r;
     file_write := written r |}.

(** ** patches/enable-cowork.py *)

Module EnableCowork.

Definition doc : str := lit "
Patch Claude Desktop to enable Cowork (yukonSilver) on Linux.

Finds all functions that gate features behind process.platform !== 'darwin'
and patches them to unconditionally return {status:'supported'}.

Usage:
    python3 patches/enable-cowork.py <path-to-index.js>
".

Definition open_brace : chr := 123%N.
Definition close_brace : chr := 125%N.

(** The loop of [find_balanced_function] from offset [i] on, [s] being
    [content[i:]] and [depth] the counter on entry.  The result is the offset
    [i] at which the loop returns. *)
Fixpoint scan (depth : Z) (i : nat) (s : str) : option nat :=
  match s with
  | [] => None
  | c :: s' =>
      if N.eqb c open_brace then scan (depth + 1) (S i) s'
      else if N.eqb c close_brace then
             if Z.eqb (depth - 1) 0 then Some i
             else scan (depth - 1) (S i) s'
           else scan depth (S i) s'
  end.

(** The offset [i] of [return content[start:i + 1]]. *)
Definition find_balanced_end (content : str) (start : nat) : option nat :=
  scan 0 start (skipn start content).

Definition find_balanced_function (content : str) (start : nat) : option str :=
  match find_balanced_end content start with
  | Some i => Some (slice content start (i + 1))
  | None => None
  end.

(** [(old, new, name)] *)
Definition patch := (str * str * str)%type.

(** The two reports of the rewriting loop. *)
Inductive report := Patched | AlreadyPatched.

Definition report_line (name : str) (r : report) : str :=
  match r with
  | AlreadyPatched => lit "  " ++ name ++ lit "(): already patched"
  | Patched => lit "  " ++ name ++ lit "(): patched -> {status:'supported'}"
  end.

(** One turn of [for old, new, name in patches]. *)
Definition rewrite (content : str) (p : patch) : str * report :=
  let '(old, new, name) := p in
  if contains new content then (content, AlreadyPatched)
  else (replace old new content, Patched).

Fixpoint rewrite_all (content : str) (out : list str) (ps : list patch)
  : str * list str :=
  match ps with
  | [] => (content, out)
  | p :: ps' =>
      let '(content', r) := rewrite content p in
      rewrite_all content' (out ++ [report_line (snd p) r]) ps'
  end.

Definition title_bar : str := lit "titleBarStyle:'hidden',".

Definition replacement_for (func_name : str) : str :=
  lit "function " ++ func_name ++ lit "(){return{status:'supported'}}".

Section Unicode.

Variable uni_alnum : chr -> bool.

Definition gate_re : regex :=
  Lit (lit "function") ;; Plus Space ;; Group 1 (Plus Word) ;;
  Lit (lit "(){return") ;; Plus Space ;;
  Lit (lit "process.platform!=='darwin'?{status:'") ;;
  Alt (Lit (lit "unsupported")) (Lit (lit "unavailable")) ;; Lit (lit "'").

(** The first loop: one patch per match whose function body is found
    ([if func_body:] drops [None] and the empty text). *)
Definition patch_of (content : str) (m : rmatch) : list patch :=
  let func_name := group 1 m in
  match find_balanced_function content (m_start m) with
  | Some ((_ :: _) as func_body) =>
      [(func_body, replacement_for func_name, func_name)]
  | _ => []
  end.

Definition collect_patches (content : str) : list patch :=
  flat_map (patch_of content) (finditer uni_alnum gate_re content).

Definition patch_file (filepath content : str) : run :=
  let patches := collect_patches content in
  match patches with
  | [] =>
      {| ret := false;
         printed := [lit "ERROR: No platform-gated functions found in " ++ filepath];
         written := None |}
  | _ :: _ =>
      let '(content1, out1) := rewrite_all content [] patches in
      let count := Py.count title_bar content1 in
      let '(content2, out2) :=
        match count with
        | O => (content1, out1)
        | S _ =>
            (replace title_bar [] content1,
             out1 ++ [lit "  Removed " ++ str_of_nat count
                      ++ lit " titleBarStyle:'hidden' (Linux native frame)"])
        end in
      {| ret := true;
         printed := out2 ++ [lit "SUCCESS: Patched " ++ str_of_nat (List.length patches)
                             ++ lit " function(s) in " ++ filepath];
         written := Some content2 |}
  end.

(** [__main__]: [content] is the text of the file named by [argv[1]]. *)
Definition main (argv : list str) (content : str) : process :=
  match argv with
  | _ :: filepath :: _ => exit_of (patch_file filepath content)
  | _ => {| exit_status := 1; stdout := [doc]; file_write := None |}
  end.

End Unicode.

End EnableCowork.

(** ** patches/inject-cowork-bridge.py *)

Module InjectBridge.

Definition doc : str := lit "
Inject ClaudeVM and Cowork IPC bridges into mainView.js preload.

The web code (claude.ai) expects ClaudeVM and extended AppFeatures APIs
to be exposed via contextBridge. Newer bundle versions removed these,
so we inject them at install time.

Usage:
    python3 patches/inject-cowork-bridge.py <path-to-mainView.js>
".

(** An f-string is a sequence of literal pieces and replacement fields; the
    fields of [inject_parts] are [{obj_var}], [{inv}] and [{pfx}]. *)
Inductive field := OBJ_VAR | INV | PFX.
Inductive piece := T (s : string) | F (x : field).
Definition fstring := list piece.

Definition render_piece (env : field -> str) (p : piece) : str :=
  match p with
  | T s => lit s
  | F x => env x
  end.

Definition render (env : field -> str) (f : fstring) : str :=
  flat_map (render_piece env) f.

(** [pfx = f'$eipc_message$_{uuid}_$_claude.settings_$_'] *)
Definition pfx_of (uuid : str) : str :=
  lit "$eipc_message$_" ++ uuid ++ lit "_$_claude.settings_$_".

(** [inv = f'{ipc_var}.ipcRenderer.invoke'] *)
Definition inv_of (ipc_var : str) : str := ipc_var ++ lit ".ipcRenderer.invoke".

Definition env_of (uuid ipc_var obj_var : str) (x : field) : str :=
  match x with
  | OBJ_VAR => obj_var
  | INV => inv_of ipc_var
  | PFX => pfx_of uuid
  end.

(** Ensure claude.settings namespace exists *)
Definition part_settings : fstring :=
  [F OBJ_VAR; T "['claude.settings']="; F OBJ_VAR; T "['claude.settings']||{}"].

(** ClaudeVM namespace *)
Definition part_claudevm : fstring :=
  [F OBJ_VAR; T "['claude.settings'].ClaudeVM={"]
  ++ [T "setYukonSilverConfig:function(t){console.log('[BRIDGE] ClaudeVM.setYukonSilverConfig called',t);return ";
      F INV; T "('"; F PFX; T "ClaudeVM_$_setYukonSilverConfig',t)},"]
  ++ [T "getSupportStatus:function(){console.log('[BRIDGE] ClaudeVM.getSupportStatus called');return ";
      F INV; T "('"; F PFX; T "ClaudeVM_$_getSupportStatus')},"]
  ++ [T "getDownloadStatus:function(){console.log('[BRIDGE] ClaudeVM.getDownloadStatus called');return ";
      F INV; T "('"; F PFX; T "ClaudeVM_$_getDownloadStatus')},"]
  ++ [T "getRunningStatus:function(){console.log('[BRIDGE] ClaudeVM.getRunningStatus called');return ";
      F INV; T "('"; F PFX; T "ClaudeVM_$_getRunningStatus')},"]
  ++ [T "download:function(){console.log('[BRIDGE] ClaudeVM.download called');return ";
      F INV; T "('"; F PFX; T "ClaudeVM_$_download')},"]
  ++ [T "start:function(){console.log('[BRIDGE] ClaudeVM.start called');return ";
      F INV; T "('"; F PFX; T "ClaudeVM_$_start')},"]
  ++ [T "stop:function(){console.log('[BRIDGE] ClaudeVM.stop called');return ";
      F INV; T "('"; F PFX; T "ClaudeVM_$_stop')}"]
  ++ [T "}"].

(** Extend AppFeatures with Cowork-related methods *)
Definition part_appfeatures : fstring :=
  [T "if("; F OBJ_VAR; T "['claude.settings'].AppFeatures){"]
  ++ [F OBJ_VAR; T "['claude.settings'].AppFeatures.getCoworkFeatureState=function(){return ";
      F INV; T "('"; F PFX; T "AppFeatures_$_getCoworkFeatureState')};"]
  ++ [F OBJ_VAR; T "['claude.settings'].AppFeatures.getYukonSilverStatus=function(){return ";
      F INV; T "('"; F PFX; T "AppFeatures_$_getYukonSilverStatus')};"]
  ++ [F OBJ_VAR; T "['claude.settings'].AppFeatures.getFeatureFlags=function(){return ";
      F INV; T "('"; F PFX; T "AppFeatures_$_getFeatureFlags')}"]
  ++ [T "}"].

(** LocalAgentModeSessions namespace *)
Definition part_sessions : fstring :=
  [F OBJ_VAR; T "['claude.settings'].LocalAgentModeSessions={"]
  ++ [T "getAll:function(){return "; F INV; T "('"; F PFX;
      T "LocalAgentModeSessions_$_getAll')},"]
  ++ [T "create:function(t){return "; F INV; T "('"; F PFX;
      T "LocalAgentModeSessions_$_create',t)},"]
  ++ [T "get:function(t){return "; F INV; T "('"; F PFX;
      T "LocalAgentModeSessions_$_get',t)}"]
  ++ [T "}"].

Definition inject_parts : list fstring :=
  [part_settings; part_claudevm; part_appfeatures; part_sessions].

(** [inject = ';'.join(inject_parts)] *)
Definition inject_code (uuid ipc_var obj_var : str) : str :=
  join (lit ";") (List.map (render (env_of uuid ipc_var obj_var)) inject_parts).

(** Lines 97-99: [content.replace(original, inject + ';' + original, 1)]. *)
Definition inject_bridge (uuid ipc_var obj_var original content : str) : str :=
  let replacement := inject_code uuid ipc_var obj_var ++ lit ";" ++ original in
  replace1 original replacement content.

Definition process_expose (ipc_var : str) : str :=
  ipc_var ++ lit ".contextBridge.exposeInMainWorld('process',K)".

Definition process_fix (ipc_var : str) : str :=
  lit "K.platform='darwin';K.arch='arm64';" ++ process_expose ipc_var.

(** Patch 2: the new content and what it prints. *)
Definition fix_process (ipc_var content : str) : str * list str :=
  if contains (process_expose ipc_var) content
     && negb (contains (process_fix ipc_var) content)
  then (replace1 (process_expose ipc_var) (process_fix ipc_var) content,
        [lit "  Patched window.process.platform/arch -> darwin/arm64"])
  else (content, []).

Definition uuid_re : regex :=
  Lit (lit "$eipc_message$_") ;;
  Group 1 (Rep Hex 8 ;; Lit (lit "-") ;; Rep Hex 4 ;; Lit (lit "-") ;;
           Rep Hex 4 ;; Lit (lit "-") ;; Rep Hex 4 ;; Lit (lit "-") ;;
           Rep Hex 12).

Definition ipc_re : regex :=
  Group 1 (Plus Word) ;; Lit (lit ".ipcRenderer.invoke('$eipc_message$").

Definition anchor_re : regex :=
  Group 1 (Lit (lit "Object.keys(") ;; Group 2 (Plus Word) ;;
           Lit (lit ").forEach(") ;; Group 3 (Plus Word) ;; Lit (lit "=>") ;;
           Group 4 (Plus Word) ;;
           Lit (lit ".contextBridge.exposeInMainWorld(") ;; Backref 3 ;;
           Lit (lit ",") ;; Backref 2 ;; Lit (lit "[") ;; Backref 3 ;;
           Lit (lit "]))")).

Definition failed (out : list str) : run :=
  {| ret := false; printed := out; written := None |}.

Section Unicode.

Variable uni_alnum : chr -> bool.

Definition patch_mainview (filepath content : str) : run :=
  if contains (lit "ClaudeVM") content then
    {| ret := true;
       printed := [lit "  mainView.js: already patched (ClaudeVM bridge exists)"];
       written := None |}
  else
  match search uni_alnum uuid_re content with
  | None => failed [lit "ERROR: Could not extract EIPC UUID from " ++ filepath]
  | Some uuid_match =>
  let uuid := group 1 uuid_match in
  let out := [lit "  EIPC UUID: " ++ uuid] in
  match search uni_alnum ipc_re content with
  | None =>
      failed (out ++ [lit "ERROR: Could not find ipcRenderer variable in "
                      ++ filepath])
  | Some ipc_match =>
  let ipc_var := group 1 ipc_match in
  match search uni_alnum anchor_re content with
  | None =>
      failed (out ++ [lit "ERROR: Could not find contextBridge.exposeInMainWorld pattern in "
                      ++ filepath])
  | Some m =>
  let obj_var := group 2 m in
  let original := group 1 m in
  let content1 := inject_bridge uuid ipc_var obj_var original content in
  let '(content2, out2) := fix_process ipc_var content1 in
  {| ret := true;
     printed :=
       out ++ out2
       ++ [lit "SUCCESS: Injected Cowork IPC bridges into " ++ filepath;
           lit "  Settings var: " ++ obj_var ++ lit ", Electron var: " ++ ipc_var;
           lit "  Added: ClaudeVM (7 methods), AppFeatures (+3), LocalAgentModeSessions (3)"];
     written := Some content2 |}
  end end end.

(** [__main__]: [content] is the text of the file named by [argv[1]]. *)
Definition main (argv : list str) (content : str) : process :=
  match argv with
  | _ :: filepath :: _ => exit_of (patch_mainview filepath content)
  | _ => {| exit_status := 1; stdout := [doc]; file_write := None |}
  end.

End Unicode.

End InjectBridge.

(** ** Vocabulary of the specification *)

Module Spec.

Import EnableCowork.

Definition is_brace (c : chr) : bool :=
  N.eqb c open_brace || N.eqb c close_brace.

(** [balanced n w]: [w] holds [n] correctly nested pairs of braces and any
    other characters around and between them. *)
Inductive balanced : nat -> str -> Prop :=
| bal_nil : balanced 0 []
| bal_chr : forall n c w,
    is_brace c = false -> balanced n w -> balanced n (c :: w)
| bal_pair : forall n m w w',
    balanced n w -> balanced m w' ->
    balanced (S (n + m)) (open_brace :: w ++ close_brace :: w').

(** [nested N w]: [w] is one outermost pair of braces around [N - 1]
    correctly nested pairs. *)
Inductive nested : nat -> str -> Prop :=
| nested_intro : forall n w,
    balanced n w -> nested (S n) (open_brace :: w ++ [close_brace]).

(** What one character adds to the nesting depth. *)
Definition step (c : chr) : Z :=
  if N.eqb c open_brace then 1%Z
  else if N.eqb c close_brace then (-1)%Z else 0%Z.

(** Opening minus closing delimiters of a text. *)
Fixpoint delta (s : str) : Z :=
  match s with
  | [] => 0%Z
  | c :: s' => (step c + delta s')%Z
  end.

(** The nesting depth at offset [i], counted from offset [start]: the
    delimiters of [content[start:i + 1]]. *)
Definition depth_at (content : str) (start i : nat) : Z :=
  delta (slice content start (i + 1)).

(** What the patterns mean: [derives r t g g'] says that [r] can match
    exactly the text [t] when the groups captured before are [g], and that
    the groups are [g'] afterwards. *)
Section Derives.

Variable uni_alnum : chr -> bool.

Inductive derives : regex -> str -> groups -> groups -> Prop :=
| d_lit : forall t g, derives (Lit t) t g g
| d_plus : forall c t g,
    t <> [] -> forallb (in_class uni_alnum c) t = true ->
    derives (Plus c) t g g
| d_rep : forall c n t g,
    len t = n -> forallb (in_class uni_alnum c) t = true ->
    derives (Rep c n) t g g
| d_alt_l : forall r1 r2 t g g',
    derives r1 t g g' -> derives (Alt r1 r2) t g g'
| d_alt_r : forall r1 r2 t g g',
    derives r2 t g g' -> derives (Alt r1 r2) t g g'
| d_cat : forall r1 r2 t1 t2 g g1 g2,
    derives r1 t1 g g1 -> derives r2 t2 g1 g2 ->
    derives (Cat r1 r2) (t1 ++ t2) g g2
| d_group : forall k r t g g',
    derives r t g g' -> derives (Group k r) t g ((k, t) :: g')
| d_backref : forall k t g,
    get k g = Some t -> derives (Backref k) t g g.

End Derives.

(** The three statuses of a patch record. *)
Inductive status := Applied | AlreadyApplied | NotFound.

Definition status_of (r : report) : status :=
  match r with
  | Patched => Applied
  | AlreadyPatched => AlreadyApplied
  end.

(** A text without braces. *)
Definition brace_free (s : str) : bool :=
  forallb (fun c => negb (is_brace c)) s.

(** *** The injected code as one template *)

Import InjectBridge.

(** The whole of [inject] as one f-string: the four parts with the
    separator of [';'.join] between them. *)
Definition inject_template : fstring :=
  part_settings ++ [T ";"] ++ part_claudevm ++ [T ";"]
  ++ part_appfeatures ++ [T ";"] ++ part_sessions.

(** The channels of the thirteen bridge methods, after the prefix. *)
Definition channels : list string :=
  [ "ClaudeVM_$_setYukonSilverConfig"; "ClaudeVM_$_getSupportStatus";
    "ClaudeVM_$_getDownloadStatus"; "ClaudeVM_$_getRunningStatus";
    "ClaudeVM_$_download"; "ClaudeVM_$_start"; "ClaudeVM_$_stop";
    "AppFeatures_$_getCoworkFeatureState"; "AppFeatures_$_getYukonSilverStatus";
    "AppFeatures_$_getFeatureFlags";
    "LocalAgentModeSessions_$_getAll"; "LocalAgentModeSessions_$_create";
    "LocalAgentModeSessions_$_get" ]%string.

(** The call of a bridge method: the accessor, then the channel string made
    of the prefix with the UUID and of the channel of the method. *)
Definition invoke_call (uuid ipc_var : str) (ch : string) : str :=
  ipc_var ++ lit ".ipcRenderer.invoke('$eipc_message$_" ++ uuid
  ++ lit "_$_claude.settings_$_" ++ lit ch ++ lit "'".

(** What follows the settings-object variable where the code assigns to a
    namespace or tests one. *)
Definition namespaces : list string :=
  [ "['claude.settings']=";
    "['claude.settings']||{}";
    "['claude.settings'].ClaudeVM={";
    "['claude.settings'].AppFeatures){";
    "['claude.settings'].AppFeatures.getCoworkFeatureState=function(){";
    "['claude.settings'].AppFeatures.getYukonSilverStatus=function(){";
    "['claude.settings'].AppFeatures.getFeatureFlags=function(){";
    "['claude.settings'].LocalAgentModeSessions={" ]%string.

(** No literal piece of a template holds a channel prefix or an accessor,
    and a literal piece names the settings namespace only once, at its
    start, right after the field of the settings-object variable: these
    texts come into the code through the fields and nowhere else. *)
Definition literal_clean (s : string) : bool :=
  negb (contains (lit "eipc_message") (lit s))
  && negb (contains (lit "ipcRenderer") (lit s)).

Fixpoint fields_only (after_obj_var : bool) (f : fstring) : bool :=
  match f with
  | [] => true
  | T s :: f' =>
      literal_clean s
      && (if contains (lit "claude.settings") (lit s)
          then after_obj_var
               && startswith (lit "['claude.settings']") (lit s)
               && Nat.eqb (Py.count (lit "claude.settings") (lit s)) 1
          else true)
      && fields_only false f'
  | F x :: f' =>
      fields_only (match x with OBJ_VAR => true | _ => false end) f'
  end.

(** The depth after [s] on a run of the extractor's loop that enters [s]
    with depth [d] and does not return inside [s]. *)
Fixpoint pass (d : Z) (s : str) : option Z :=
  match s with
  | [] => Some d
  | c :: s' =>
      if N.eqb c open_brace then pass (d + 1) s'
      else if N.eqb c close_brace then
             if Z.eqb (d - 1) 0 then None else pass (d - 1) s'
           else pass d s'
  end.

(** The same over a template whose fields hold no brace. *)
Fixpoint pass_template (d : Z) (f : fstring) : option Z :=
  match f with
  | [] => Some d
  | T s :: f' =>
      match pass d (lit s) with
      | Some d' => pass_template d' f'
      | None => None
      end
  | F _ :: f' => pass_template d f'
  end.

(** The depth after [s] when it is never negative inside [s]. *)
Fixpoint level (d : Z) (s : str) : option Z :=
  match s with
  | [] => Some d
  | c :: s' => if Z.ltb (d + step c) 0 then None else level (d + step c) s'
  end.

Fixpoint level_template (d : Z) (f : fstring) : option Z :=
  match f with
  | [] => Some d
  | T s :: f' =>
      match level d (lit s) with
      | Some d' => level_template d' f'
      | None => None
      end
  | F _ :: f' => level_template d f'
  end.

Definition field_eqb (x y : field) : bool :=
  match x, y with
  | OBJ_VAR, OBJ_VAR | INV, INV | PFX, PFX => true
  | _, _ => false
  end.

Definition piece_eqb (p q : piece) : bool :=
  match p, q with
  | T s, T s' => String.eqb s s'
  | F x, F y => field_eqb x y
  | _, _ => false
  end.

(** The template [f] starts with the pieces [x] and then with a literal
    piece that starts with [l]. *)
Fixpoint starts_with_pieces (x : fstring) (l : str) (f : fstring) : bool :=
  match x, f with
  | [], T s :: _ => startswith l (lit s)
  | [], _ => false
  | p :: x', q :: f' => piece_eqb p q && starts_with_pieces x' l f'
  | _ :: _, [] => false
  end.

Fixpoint occurs_in_template (x : fstring) (l : str) (f : fstring) : bool :=
  starts_with_pieces x l f
  || match f with
     | [] => false
     | _ :: f' => occurs_in_template x l f'
     end.

(** The statement of the depth invariant of a fragment as the
    specification has it: depth zero at the end offset and nonzero at every
    offset strictly between the start and end offsets. *)
Definition depth_invariant_as_stated : Prop :=
  forall content start frag,
    find_balanced_function content start = Some frag ->
    let e := (start + len frag - 1)%nat in
    depth_at content start e = 0%Z /\
    forall i, (start < i < e)%nat -> depth_at content start i <> 0%Z.

(** A text is balanced under the depth count when the depth is never
    negative in it and is zero at its end. *)
Definition depth_balanced (s : str) : Prop :=
  delta s = 0%Z /\ forall k, (0 <= delta (firstn k s))%Z.

(** The statement of the NotFound outcome as the specification has it: a
    patch whose original fragment is absent leaves the buffer as it is and is
    reported as NotFound. *)
Definition not_found_as_stated : Prop :=
  forall content old new name,
    contains old content = false ->
    fst (rewrite content (old, new, name)) = content /\
    status_of (snd (rewrite content (old, new, name))) = NotFound.

(** The characters of a UUID. *)
Definition hex_or_dash (c : chr) : bool := is_hex c || N.eqb c 45.

(** A Unicode table for buffers that are ASCII only. *)
Definition no_unicode (c : chr) : bool := false.

(** A preload bundle with the three things the injector looks for. *)
Definition main_view : str :=
  lit "var x=o.ipcRenderer.invoke('$eipc_message$_01234567-89ab-cdef-0123-456789abcdef_$_a');Object.keys(C).forEach(k=>o.contextBridge.exposeInMainWorld(k,C[k]));o.contextBridge.exposeInMainWorld('process',K)".

(** [closes d s]: [s] is [d] balanced texts, each followed by a closing
    brace: what the extractor's loop reads from depth [d] until it
    returns. *)
Inductive closes : nat -> str -> Prop :=
| closes_nil : closes 0 []
| closes_cons : forall d n w s,
    balanced n w -> closes d s -> closes (S d) (w ++ close_brace :: s).

(** A bundle with one gated function and one title bar option. *)
Definition gated_sample : str :=
  lit "x;function isFoo(){return process.platform!=='darwin'?{status:'unsupported'}:{status:'supported'}};titleBarStyle:'hidden',y".

(** A platform-gated function as the bundle has them: the name, any white
    space where the pattern allows it, and either of the two statuses. *)
Definition gated_function (ws name ws' kind : str) : str :=
  lit "function" ++ ws ++ name ++ lit "(){return" ++ ws'
  ++ lit "process.platform!=='darwin'?{status:'" ++ kind
  ++ lit "'}:{status:'supported'}}".

(** The text [b] starts with a character out of the class [p]. *)
Definition starts_outside (p : chr -> bool) (b : str) : bool :=
  match b with
  | c :: _ => negb (p c)
  | [] => false
  end.

End Spec.

(* ================================================================== *)
(** * Part II: properties *)
(* ================================================================== *)

Unset Implicit Arguments.

(** ** Strings *)

Module PyFacts.

Lemma skipn_pre (pre rest : str) : skipn (len pre) (pre ++ rest) = rest.
Proof.
  unfold len. rewrite skipn_app, skipn_all, Nat.sub_diag. reflexivity.
Qed.

Lemma startswith_app t r : startswith t (t ++ r) = true.
Proof.
  induction t as [|a t IH]; simpl; [reflexivity|].
  now rewrite N.eqb_refl, IH.
Qed.

Lemma startswith_inv t : forall s,
  startswith t s = true -> s = t ++ skipn (len t) s.
Proof.
  induction t as [|a t IH]; intros s H; simpl in *; [reflexivity|].
  destruct s as [|b s]; [discriminate|].
  apply andb_true_iff in H as [Hab Hts].
  apply N.eqb_eq in Hab; subst b.
  simpl. f_equal. now apply IH.
Qed.

Lemma startswith_iff t s :
  startswith t s = true <-> exists r, s = t ++ r.
Proof.
  split.
  - intros H. eexists. now apply startswith_inv.
  - intros [r ->]. apply startswith_app.
Qed.

Lemma startswith_nil_r t : startswith t [] = true -> t = [].
Proof. destruct t; simpl; [reflexivity | discriminate]. Qed.

(** [find] returns an offset where [sub] occurs. *)
Lemma find_some sub : forall s i,
  find sub s = Some i ->
  s = firstn i s ++ sub ++ skipn (i + len sub) s.
Proof.
  induction s as [|c s IH]; intros i H; simpl in H.
  - destruct (startswith sub []) eqn:E; [|discriminate].
    injection H as <-. apply startswith_nil_r in E. now subst.
  - destruct (startswith sub (c :: s)) eqn:E.
    + injection H as <-. simpl firstn. simpl app at 1.
      now apply startswith_inv in E.
    + destruct (find sub s) as [k|] eqn:F; [|discriminate].
      injection H as <-. simpl. f_equal. now apply IH.
Qed.

(** ... and it is the lowest such offset. *)
Lemma find_some_least sub : forall s i,
  find sub s = Some i ->
  forall j, j < i -> startswith sub (skipn j s) = false.
Proof.
  induction s as [|c s IH]; intros i H j Hj; simpl in H.
  - destruct (startswith sub []); [injection H as <-; lia | discriminate].
  - destruct (startswith sub (c :: s)) eqn:E.
    + injection H as <-. lia.
    + destruct (find sub s) as [k|] eqn:F; [|discriminate].
      injection H as <-.
      destruct j as [|j]; [exact E|].
      simpl. apply (IH k eq_refl). lia.
Qed.

Lemma find_none sub : forall s,
  find sub s = None -> forall a b, s <> a ++ sub ++ b.
Proof.
  induction s as [|c s IH]; intros H a b Heq; simpl in H.
  - destruct (startswith sub []) eqn:E; [discriminate|].
    symmetry in Heq. apply app_eq_nil in Heq as [_ Heq].
    apply app_eq_nil in Heq as [-> _]. discriminate.
  - destruct (startswith sub (c :: s)) eqn:E; [discriminate|].
    destruct (find sub s) eqn:F; [discriminate|].
    destruct a as [|x a].
    + simpl in Heq. rewrite Heq, startswith_app in E. discriminate.
    + injection Heq as _ Heq. exact (IH eq_refl a b Heq).
Qed.

Lemma find_app_some sub : forall a b, exists i, find sub (a ++ sub ++ b) = Some i.
Proof.
  intros a b. destruct (find sub (a ++ sub ++ b)) as [i|] eqn:F.
  - now exists i.
  - exfalso. exact (find_none _ _ F a b eq_refl).
Qed.

Lemma startswith_length t : forall s, startswith t s = true -> len t <= len s.
Proof.
  induction t as [|a t IH]; intros [|b s] H; simpl in *; try lia; try discriminate.
  apply andb_true_iff in H as [_ H]. apply IH in H. unfold len in *. lia.
Qed.

Lemma find_length sub : forall s i, find sub s = Some i -> i + len sub <= len s.
Proof.
  induction s as [|c s IH]; intros i H; simpl in H.
  - destruct (startswith sub []) eqn:E; [|discriminate].
    injection H as <-. now apply startswith_length in E.
  - destruct (startswith sub (c :: s)) eqn:E.
    + injection H as <-. now apply startswith_length in E.
    + destruct (find sub s) as [k|] eqn:F; [|discriminate].
      injection H as <-. specialize (IH k eq_refl). simpl. lia.
Qed.

(** [sub in s] holds exactly when [s] is some text, [sub], some text. *)
Lemma contains_iff sub s :
  contains sub s = true <-> exists a b, s = a ++ sub ++ b.
Proof.
  unfold contains. split.
  - destruct (find sub s) as [i|] eqn:F; [|discriminate].
    intros _. eexists _, _. apply (find_some _ _ _ F).
  - intros (a & b & ->).
    destruct (find_app_some sub a b) as [i ->]. reflexivity.
Qed.

Lemma contains_false sub s :
  contains sub s = false -> forall a b, s <> a ++ sub ++ b.
Proof.
  unfold contains. destruct (find sub s) eqn:F; [discriminate|].
  intros _. now apply find_none.
Qed.

Lemma contains_app_l sub a b : contains sub a = true -> contains sub (a ++ b) = true.
Proof.
  rewrite !contains_iff. intros (x & y & ->).
  exists x, (y ++ b). now rewrite <- !app_assoc.
Qed.

Lemma contains_app_r sub a b : contains sub b = true -> contains sub (a ++ b) = true.
Proof.
  rewrite !contains_iff. intros (x & y & ->).
  exists (a ++ x), y. now rewrite <- !app_assoc.
Qed.

Lemma contains_nil s : contains [] s = true.
Proof. now destruct s. Qed.

Lemma contains_refl s : contains s s = true.
Proof. apply contains_iff. exists [], []. now rewrite app_nil_r. Qed.

Lemma contains_tail sub c s : contains sub (c :: s) = false -> contains sub s = false.
Proof.
  intros H. destruct (contains sub s) eqn:E; [|reflexivity].
  apply (contains_app_r sub [c]) in E. simpl in E. congruence.
Qed.

Lemma contains_head sub s : contains sub s = false -> startswith sub s = false.
Proof.
  intros H. destruct (startswith sub s) eqn:E; [|reflexivity].
  apply startswith_inv in E.
  exfalso. apply (contains_false _ _ H [] (skipn (len sub) s)). exact E.
Qed.

Lemma replace_from_cons old new c s :
  replace_from old new 0 (c :: s) =
  if startswith old (c :: s)
  then new ++ replace_from old new (len old - 1) s
  else c :: replace_from old new 0 s.
Proof. reflexivity. Qed.

(** [replace] leaves a text without any occurrence of [old] as it is. *)
Lemma replace_from_absent old new : forall s,
  contains old s = false -> replace_from old new 0 s = s.
Proof.
  induction s as [|c s IH]; intros H; [reflexivity|].
  rewrite replace_from_cons, (contains_head _ _ H).
  f_equal. apply IH. now apply contains_tail in H.
Qed.

Lemma replace_absent old new s :
  old <> [] -> contains old s = false -> replace old new s = s.
Proof.
  intros Hne H. destruct old; [congruence|]. now apply replace_from_absent.
Qed.

Lemma replace1_absent old new s :
  contains old s = false -> replace1 old new s = s.
Proof.
  unfold contains, replace1. now destruct (find old s).
Qed.

(** [replace(old, new, 1)] splices [new] in at the first occurrence. *)
Lemma replace1_splice old new s :
  contains old s = true ->
  exists pre post,
    s = pre ++ old ++ post /\
    find old s = Some (len pre) /\
    replace1 old new s = pre ++ new ++ post.
Proof.
  unfold contains, replace1. destruct (find old s) as [i|] eqn:F; [|discriminate].
  intros _. exists (firstn i s), (skipn (i + len old) s).
  pose proof (find_length _ _ _ F) as L.
  split; [apply (find_some _ _ _ F)|]. split; [|reflexivity].
  unfold len in *. rewrite length_firstn. f_equal. lia.
Qed.

End PyFacts.

(** ** The balanced-block extractor *)

Module ExtractorFacts.

Import PyFacts EnableCowork Spec.

Local Open Scope Z_scope.

Lemma brace_neq : N.eqb close_brace open_brace = false.
Proof. reflexivity. Qed.

(** The three cases of the loop body. *)
Lemma scan_open d i s : scan d i (open_brace :: s) = scan (d + 1) (S i) s.
Proof. reflexivity. Qed.

Lemma scan_close d i s :
  scan d i (close_brace :: s) =
  if Z.eqb (d - 1) 0 then Some i else scan (d - 1) (S i) s.
Proof. reflexivity. Qed.

Lemma scan_other d i c s :
  is_brace c = false -> scan d i (c :: s) = scan d (S i) s.
Proof.
  unfold is_brace. intros H. apply orb_false_iff in H as [H1 H2].
  simpl. now rewrite H1, H2.
Qed.

Lemma char_cases c :
  c = open_brace \/ c = close_brace \/ is_brace c = false.
Proof.
  unfold is_brace.
  destruct (N.eqb c open_brace) eqn:E1; [left; now apply N.eqb_eq|].
  destruct (N.eqb c close_brace) eqn:E2; [right; left; now apply N.eqb_eq|].
  auto.
Qed.

Lemma step_open : step open_brace = 1.
Proof. reflexivity. Qed.

Lemma step_close : step close_brace = -1.
Proof. reflexivity. Qed.

Lemma step_other c : is_brace c = false -> step c = 0.
Proof.
  unfold is_brace, step. intros H. apply orb_false_iff in H as [-> ->].
  reflexivity.
Qed.

Lemma step_pos c : 0 < step c -> c = open_brace.
Proof.
  destruct (char_cases c) as [-> | [-> | H]]; [reflexivity| |].
  - rewrite step_close. lia.
  - rewrite (step_other _ H). lia.
Qed.

Lemma delta_cons c s : delta (c :: s) = step c + delta s.
Proof. reflexivity. Qed.

Lemma delta_app a b : delta (a ++ b) = delta a + delta b.
Proof.
  induction a as [|c a IH]; [reflexivity|].
  simpl app. rewrite !delta_cons, IH. lia.
Qed.

Lemma firstn_snoc (s : str) : forall i c,
  nth_error s i = Some c -> firstn (S i) s = firstn i s ++ [c].
Proof.
  induction s as [|x s IH]; intros [|i] c H; simpl in *; try discriminate.
  - now injection H as ->.
  - f_equal. now apply IH.
Qed.

Lemma delta_firstn_S s i c :
  nth_error s i = Some c ->
  delta (firstn (S i) s) = delta (firstn i s) + step c.
Proof.
  intros H. rewrite (firstn_snoc _ _ _ H), delta_app, delta_cons.
  cbn [delta]. lia.
Qed.

(** A balanced text is passed without a return when the depth on entry is
    positive, and the depth is the same after it. *)
Lemma scan_balanced n b :
  balanced n b ->
  forall d i rest, 0 < d ->
    scan d i (b ++ rest) = scan d (i + len b) rest.
Proof.
  induction 1 as [|n c w Hc _ IH|n m w w' _ IHw _ IHw']; intros d i rest Hd.
  - simpl. now rewrite Nat.add_0_r.
  - simpl app. rewrite (scan_other _ _ _ _ Hc), IH by assumption.
    f_equal. simpl. lia.
  - simpl app. rewrite scan_open, <- app_assoc, IHw by lia.
    simpl app. rewrite scan_close.
    replace (d + 1 - 1) with d by lia.
    destruct (Z.eqb_spec d 0) as [E|_]; [lia|].
    rewrite IHw' by assumption. f_equal.
    unfold len. simpl. rewrite length_app. simpl. lia.
Qed.

Lemma delta_balanced n b : balanced n b -> delta b = 0.
Proof.
  induction 1 as [|n c w Hc _ IH|n m w w' _ IHw _ IHw'].
  - reflexivity.
  - rewrite delta_cons, (step_other _ Hc). lia.
  - rewrite delta_cons, delta_app, delta_cons, step_open, step_close. lia.
Qed.

(** What a return of the loop means: the offset holds a closing delimiter,
    the depth is zero there, and at no closing delimiter before it. *)
Lemma scan_some : forall s d i e,
  scan d i s = Some e ->
  exists k, e = (i + k)%nat /\
    nth_error s k = Some close_brace /\
    d + delta (firstn (S k) s) = 0 /\
    forall j, (j < k)%nat -> nth_error s j = Some close_brace ->
              d + delta (firstn (S j) s) <> 0.
Proof.
  induction s as [|c s IH]; intros d i e H; [discriminate|].
  destruct (char_cases c) as [-> | [-> | Hc]].
  - rewrite scan_open in H. apply IH in H as (k & -> & Hk & Hz & Hlt).
    exists (S k). repeat split.
    + lia.
    + exact Hk.
    + change (firstn (S (S k)) (open_brace :: s))
        with (open_brace :: firstn (S k) s).
      rewrite delta_cons. rewrite step_open. lia.
    + intros [|j] Hj Hn; [discriminate|].
      change (firstn (S (S j)) (open_brace :: s))
        with (open_brace :: firstn (S j) s).
      rewrite delta_cons. rewrite step_open.
      specialize (Hlt j ltac:(lia) Hn). lia.
  - rewrite scan_close in H. destruct (Z.eqb_spec (d - 1) 0) as [E|E].
    + injection H as <-. exists 0%nat. repeat split.
      * lia.
      * cbn [firstn delta]. rewrite step_close. lia.
      * intros j Hj. lia.
    + apply IH in H as (k & -> & Hk & Hz & Hlt).
      exists (S k). repeat split.
      * lia.
      * exact Hk.
      * change (firstn (S (S k)) (close_brace :: s))
          with (close_brace :: firstn (S k) s).
        rewrite delta_cons. rewrite step_close. lia.
      * intros [|j] Hj Hn.
        -- cbn [firstn delta]. rewrite step_close. lia.
        -- change (firstn (S (S j)) (close_brace :: s))
             with (close_brace :: firstn (S j) s).
           rewrite delta_cons. rewrite step_close.
           specialize (Hlt j ltac:(lia) Hn). lia.
  - rewrite (scan_other _ _ _ _ Hc) in H.
    apply IH in H as (k & -> & Hk & Hz & Hlt).
    exists (S k). repeat split.
    + lia.
    + exact Hk.
    + change (firstn (S (S k)) (c :: s)) with (c :: firstn (S k) s).
      rewrite delta_cons. rewrite (step_other _ Hc). lia.
    + intros [|j] Hj Hn.
      * simpl in Hn. injection Hn as ->. discriminate.
      * change (firstn (S (S j)) (c :: s)) with (c :: firstn (S j) s).
        rewrite delta_cons. rewrite (step_other _ Hc).
        specialize (Hlt j ltac:(lia) Hn). lia.
Qed.

(** What running out of input means: no closing delimiter has depth zero. *)
Lemma scan_none : forall s d i,
  scan d i s = None ->
  forall j, nth_error s j = Some close_brace ->
            d + delta (firstn (S j) s) <> 0.
Proof.
  induction s as [|c s IH]; intros d i H j Hn; [destruct j; discriminate|].
  destruct (char_cases c) as [-> | [-> | Hc]].
  - rewrite scan_open in H. destruct j as [|j]; [discriminate|].
    change (firstn (S (S j)) (open_brace :: s))
      with (open_brace :: firstn (S j) s).
    rewrite delta_cons. rewrite step_open.
    specialize (IH _ _ H j Hn). lia.
  - rewrite scan_close in H. destruct (Z.eqb_spec (d - 1) 0) as [E|E];
      [discriminate|].
    destruct j as [|j].
    + cbn [firstn delta]. rewrite step_close. lia.
    + change (firstn (S (S j)) (close_brace :: s))
        with (close_brace :: firstn (S j) s).
      rewrite delta_cons. rewrite step_close.
      specialize (IH _ _ H j Hn). lia.
  - rewrite (scan_other _ _ _ _ Hc) in H. destruct j as [|j].
    + simpl in Hn. injection Hn as ->. discriminate.
    + change (firstn (S (S j)) (c :: s)) with (c :: firstn (S j) s).
      rewrite delta_cons. rewrite (step_other _ Hc).
      specialize (IH _ _ H j Hn). lia.
Qed.

Lemma depth_at_offset content start k :
  depth_at content start (start + k) =
  delta (firstn (S k) (skipn start content)).
Proof. unfold depth_at, slice. do 2 f_equal. lia. Qed.

Lemma delta_step_bounds c : -1 <= step c <= 1.
Proof.
  destruct (char_cases c) as [-> | [-> | H]].
  - rewrite step_open. lia.
  - rewrite step_close. lia.
  - rewrite (step_other _ H). lia.
Qed.

(** Without an opening delimiter the depth cannot rise. *)
Lemma delta_no_open : forall n s,
  (forall x, (x < n)%nat -> nth_error s x <> Some open_brace) ->
  delta (firstn n s) <= 0.
Proof.
  induction n as [|n IH]; intros [|c s] H; try (cbn [firstn delta]; lia).
  cbn [firstn]. rewrite delta_cons.
  assert (step c <= 0).
  { destruct (Z.ltb_spec 0 (step c)) as [P|P]; [|lia].
    apply step_pos in P. subst c. exfalso. apply (H 0%nat); [lia | reflexivity]. }
  assert (delta (firstn n s) <= 0).
  { apply IH. intros x Hx. apply (H (S x)). lia. }
  lia.
Qed.

Lemma delta_no_brace : forall n s,
  (forall x, (x < n)%nat -> nth_error s x <> Some open_brace) ->
  (forall x, (x < n)%nat -> nth_error s x <> Some close_brace) ->
  delta (firstn n s) = 0.
Proof.
  induction n as [|n IH]; intros [|c s] Ho Hc; try reflexivity.
  cbn [firstn]. rewrite delta_cons.
  destruct (char_cases c) as [-> | [-> | H]].
  - exfalso. apply (Ho 0%nat); [lia | reflexivity].
  - exfalso. apply (Hc 0%nat); [lia | reflexivity].
  - rewrite (step_other _ H), IH; [reflexivity| |].
    + intros x Hx. apply (Ho (S x)). lia.
    + intros x Hx. apply (Hc (S x)). lia.
Qed.

(** A positive depth needs an opening delimiter: there is a first one. *)
Lemma first_open_exists : forall s n,
  0 < delta (firstn n s) ->
  exists j, (j < n)%nat /\ nth_error s j = Some open_brace /\
    forall x, (x < j)%nat -> nth_error s x <> Some open_brace.
Proof.
  induction s as [|c s IH]; intros n H.
  - rewrite firstn_nil in H. cbn [delta] in H. lia.
  - destruct n as [|n]; [cbn [firstn delta] in H; lia|].
    destruct (N.eqb_spec c open_brace) as [->|Hne].
    + exists 0%nat. repeat split; [lia | intros x Hx; lia].
    + cbn [firstn] in H. rewrite delta_cons in H.
      assert (step c <= 0).
      { destruct (Z.ltb_spec 0 (step c)) as [P|P]; [|lia].
        apply step_pos in P. contradiction. }
      destruct (IH n ltac:(lia)) as (j & Hj & Hn & Hfirst).
      exists (S j). repeat split; [lia | exact Hn |].
      intros [|x] Hx; [simpl; congruence|].
      simpl. apply Hfirst. lia.
Qed.

(** Between the first opening delimiter and the offset of the return the
    depth stays positive, when no closing delimiter comes before that first
    opening delimiter. *)
Lemma depth_positive s j k :
  (j < k)%nat ->
  nth_error s k = Some close_brace ->
  nth_error s j = Some open_brace ->
  (forall x, (x < j)%nat -> nth_error s x <> Some open_brace) ->
  (forall x, (x < j)%nat -> nth_error s x <> Some close_brace) ->
  (forall x, (x < k)%nat -> nth_error s x = Some close_brace ->
             delta (firstn (S x) s) <> 0) ->
  forall m, (j + m < k)%nat -> 0 < delta (firstn (S (j + m)) s).
Proof.
  intros Hjk Hk Hj Ho Hc Hnz.
  induction m as [|m IH]; intros Hm.
  - rewrite Nat.add_0_r, (delta_firstn_S _ _ _ Hj), step_open,
      (delta_no_brace _ _ Ho Hc). lia.
  - specialize (IH ltac:(lia)).
    assert (Hlen : (j + S m < List.length s)%nat).
    { apply Nat.lt_trans with k; [lia|].
      apply nth_error_Some. congruence. }
    destruct (nth_error s (j + S m)) as [c|] eqn:Hn;
      [|apply nth_error_None in Hn; lia].
    rewrite (delta_firstn_S _ _ _ Hn).
    replace (j + S m)%nat with (S (j + m)) in * by lia.
    destruct (char_cases c) as [-> | [-> | H]].
    + rewrite step_open. lia.
    + specialize (Hnz _ Hm Hn).
      rewrite (delta_firstn_S _ _ _ Hn), step_close in Hnz.
      rewrite step_close. lia.
    + rewrite (step_other _ H). lia.
Qed.

(** The extractor on a block that follows [pre]: the return is at the last
    character of the block. *)
Lemma scan_nested n w pre post :
  balanced n w ->
  scan 0 (len pre) ((open_brace :: w ++ [close_brace]) ++ post) =
  Some (len pre + S (len w))%nat.
Proof.
  intros Hb. simpl app. rewrite scan_open, <- app_assoc.
  rewrite (scan_balanced _ _ Hb) by lia.
  simpl app. rewrite scan_close. simpl Z.eqb. cbv iota. f_equal. lia.
Qed.

(** C2.  For a buffer that holds, from the start offset on, one outermost
    pair of braces around correctly nested pairs ([N >= 1] pairs in all),
    [find_balanced_function] returns at the offset of the closing brace that
    matches the outermost opening brace, and the text it returns is the
    block from the start offset through that closing brace. *)
Theorem find_balanced_nested (N : nat) (pre w post : str) :
  (1 <= N)%nat ->
  nested N w ->
  find_balanced_end (pre ++ w ++ post) (len pre)
    = Some (len pre + len w - 1)%nat /\
  nth_error (pre ++ w ++ post) (len pre + len w - 1) = Some close_brace /\
  find_balanced_function (pre ++ w ++ post) (len pre) = Some w.
Proof.
  intros _ Hn. destruct Hn as [n b Hb].
  remember (open_brace :: b ++ [close_brace]) as w eqn:Hw.
  assert (Hlen : List.length w = S (S (List.length b))).
  { subst w. simpl. rewrite length_app. simpl. lia. }
  assert (Hend : find_balanced_end (pre ++ w ++ post) (len pre)
                 = Some (len pre + len w - 1)%nat).
  { unfold find_balanced_end. rewrite skipn_pre.
    rewrite Hw at 1. rewrite (scan_nested _ _ pre post Hb).
    unfold len. rewrite Hlen. f_equal. lia. }
  unfold len in *.
  split; [exact Hend|]. split.
  - rewrite nth_error_app2 by lia.
    rewrite nth_error_app1 by lia.
    replace (List.length pre + List.length w - 1 - List.length pre)%nat
      with (S (List.length b)) by lia.
    subst w. simpl. rewrite nth_error_app2 by lia.
    now rewrite Nat.sub_diag.
  - unfold find_balanced_function. rewrite Hend. f_equal.
    unfold slice. fold (len pre). rewrite skipn_pre. unfold len.
    replace (List.length pre + List.length w - 1 + 1 - List.length pre)%nat
      with (List.length w + 0)%nat by lia.
    rewrite firstn_app_2. simpl. apply app_nil_r.
Qed.

Lemma find_balanced_nested_witness :
  find_balanced_function (lit "x={a:{b:1},c:{}};y") 2 = Some (lit "{a:{b:1},c:{}}").
Proof.
  apply (find_balanced_nested 3 (lit "x=") (lit "{a:{b:1},c:{}}") (lit ";y")).
  - lia.
  - apply (nested_intro (w := lit "a:{b:1},c:{}")).
    apply bal_chr; [reflexivity|]. apply bal_chr; [reflexivity|].
    apply (bal_pair (n := 0) (m := 1) (w := lit "b:1") (w' := lit ",c:{}")).
    + repeat (apply bal_chr; [reflexivity|]). apply bal_nil.
    + repeat (apply bal_chr; [reflexivity|]).
      apply (bal_pair (n := 0) (m := 0) (w := []) (w' := [])); apply bal_nil.
Defined.

(** X2.  The same with a header free of braces between the start offset and the
    outermost opening brace, as at the call site, where the start offset is
    that of the keyword [function]. *)
Lemma find_balanced_header (N : nat) (pre hd w post : str) :
  Forall (fun c => is_brace c = false) hd ->
  nested N w ->
  find_balanced_function (pre ++ (hd ++ w) ++ post) (len pre) = Some (hd ++ w).
Proof.
  intros Hhd Hn. destruct Hn as [n b Hb].
  remember (open_brace :: b ++ [close_brace]) as w eqn:Hw.
  assert (Hscan : forall i rest,
             scan 0 i (hd ++ rest) = scan 0 (i + len hd) rest).
  { clear - Hhd. induction Hhd as [|c hd Hc _ IH]; intros i rest.
    - simpl. now rewrite Nat.add_0_r.
    - simpl app. rewrite (scan_other _ _ _ _ Hc), IH. f_equal.
      unfold len. simpl. lia. }
  assert (Hlen : List.length w = S (S (List.length b))).
  { subst w. simpl. rewrite length_app. simpl. lia. }
  unfold find_balanced_function, find_balanced_end.
  rewrite skipn_pre, <- app_assoc, Hscan.
  replace (len pre + len hd)%nat with (len (pre ++ hd))
    by (unfold len; now rewrite length_app).
  rewrite Hw at 1. rewrite (scan_nested _ _ (pre ++ hd) post Hb).
  f_equal. unfold slice. rewrite skipn_pre.
  replace (len (pre ++ hd) + S (len b) + 1 - len pre)%nat
    with (List.length (hd ++ w) + 0)%nat.
  - rewrite app_assoc, firstn_app_2. simpl. apply app_nil_r.
  - unfold len in *. rewrite !length_app, Hlen. lia.
Qed.

(** C3.  When, from the start offset on, the buffer has a first opening
    brace and the nesting depth is nonzero at every offset from that brace to
    the end of the input, [find_balanced_function] returns [None]: no
    fragment at all. *)
Theorem find_balanced_unmatched (content : str) (start j : nat) :
  (start <= j < len content)%nat ->
  nth_error content j = Some open_brace ->
  (forall i, (start <= i < j)%nat -> nth_error content i <> Some open_brace) ->
  (forall i, (j <= i < len content)%nat -> depth_at content start i <> 0) ->
  find_balanced_end content start = None /\
  find_balanced_function content start = None.
Proof.
  intros Hj Hopen Hfirst Hnz.
  assert (Hend : find_balanced_end content start = None).
  { unfold find_balanced_end.
    destruct (scan 0 start (skipn start content)) as [e|] eqn:Hs;
      [exfalso | reflexivity].
    apply scan_some in Hs as (k & -> & Hk & Hz & _).
    rewrite nth_error_skipn in Hk.
    assert (Hlt : (start + k < len content)%nat).
    { apply nth_error_Some. congruence. }
    destruct (Nat.lt_ge_cases (start + k) j) as [Hbefore|Hafter].
    - (* a return before the first opening brace: the depth is negative *)
      assert (Hk' : nth_error (skipn start content) k = Some close_brace)
        by now rewrite nth_error_skipn.
      rewrite (delta_firstn_S _ _ _ Hk'), step_close in Hz.
      assert (delta (firstn k (skipn start content)) <= 0).
      { apply delta_no_open. intros x Hx. rewrite nth_error_skipn.
        apply Hfirst. lia. }
      lia.
    - apply (Hnz (start + k)%nat); [lia|].
      rewrite depth_at_offset. lia. }
  split; [exact Hend|].
  unfold find_balanced_function. now rewrite Hend.
Qed.

Lemma find_balanced_unmatched_witness :
  find_balanced_function (lit "function f(){return{a:1}") 0 = None.
Proof.
  apply (find_balanced_unmatched (lit "function f(){return{a:1}") 0 12).
  - simpl. lia.
  - reflexivity.
  - intros i Hi.
    do 12 (destruct i as [|i]; [discriminate|]). lia.
  - intros i Hi.
    do 12 (destruct i as [|i]; [lia|]).
    do 12 (destruct i as [|i]; [discriminate|]). simpl in Hi. lia.
Defined.

(** It fails where the start offset is before the first opening brace, as at
    the call site of the script: the depth is zero on [unction f()]. *)
Lemma depth_invariant_as_stated_fails : ~ depth_invariant_as_stated.
Proof.
  intros H.
  destruct (H (lit "function f(){return{status:'supported'}}") 0%nat
              (lit "function f(){return{status:'supported'}}") eq_refl)
    as [_ Hmid].
  apply (Hmid 1%nat); [simpl; lia | reflexivity].
Qed.

(** C9, amended.  When [find_balanced_function] returns a fragment, the
    fragment ends at an offset [e] that holds a closing brace and has depth
    zero; no closing brace between the start offset and [e] has depth zero;
    a first opening brace is at some [j] before [e]; and, when no closing
    brace comes before [j], the depth is zero at the offsets before [j] and
    positive at every offset from [j] up to [e] excluded.  When no closing
    brace from the start offset on has depth zero, the result is [None]. *)
Theorem find_balanced_depth (content : str) (start : nat) :
  (forall frag,
     find_balanced_function content start = Some frag ->
     exists e j,
       (start <= j < e)%nat /\ (e < len content)%nat /\
       find_balanced_end content start = Some e /\
       frag = slice content start (e + 1) /\
       nth_error content e = Some close_brace /\
       depth_at content start e = 0 /\
       (forall i, (start <= i < e)%nat ->
                  nth_error content i = Some close_brace ->
                  depth_at content start i <> 0) /\
       nth_error content j = Some open_brace /\
       (forall i, (start <= i < j)%nat ->
                  nth_error content i <> Some open_brace) /\
       ((forall i, (start <= i < j)%nat ->
                   nth_error content i <> Some close_brace) ->
        (forall i, (start <= i < j)%nat -> depth_at content start i = 0) /\
        (forall i, (j <= i < e)%nat -> 0 < depth_at content start i)))
  /\
  ((forall e, (start <= e < len content)%nat ->
              nth_error content e = Some close_brace ->
              depth_at content start e <> 0) ->
   find_balanced_function content start = None).
Proof.
  split.
  - intros frag Hf. unfold find_balanced_function in Hf.
    destruct (find_balanced_end content start) as [e|] eqn:Hend;
      [|discriminate].
    injection Hf as <-. unfold find_balanced_end in Hend.
    set (s := skipn start content) in *.
    apply scan_some in Hend as (k & -> & Hk & Hz & Hlt).
    rewrite Z.add_0_l in Hz.
    assert (Hpos : 0 < delta (firstn k s)).
    { rewrite (delta_firstn_S _ _ _ Hk), step_close in Hz. lia. }
    destruct (first_open_exists _ _ Hpos) as (j & Hjk & Hj & Hfirst).
    assert (Hnth : forall x, nth_error s x = nth_error content (start + x)).
    { intros x. unfold s. apply nth_error_skipn. }
    exists (start + k)%nat, (start + j)%nat.
    split; [lia|]. split.
    { apply nth_error_Some. rewrite <- Hnth. congruence. }
    split; [reflexivity|]. split; [reflexivity|]. split.
    { now rewrite <- Hnth. }
    split.
    { now rewrite depth_at_offset. }
    split.
    { intros i Hi Hc.
      replace i with (start + (i - start))%nat in * by lia.
      rewrite depth_at_offset. rewrite <- Hnth in Hc.
      specialize (Hlt (i - start)%nat ltac:(lia) Hc). fold s. lia. }
    split.
    { now rewrite <- Hnth. }
    split.
    { intros i Hi.
      replace i with (start + (i - start))%nat by lia.
      rewrite <- Hnth. apply Hfirst. lia. }
    intros Hnc.
    assert (Hnc' : forall x, (x < j)%nat -> nth_error s x <> Some close_brace).
    { intros x Hx. rewrite Hnth. apply Hnc. lia. }
    split.
    + intros i Hi.
      replace i with (start + (i - start))%nat by lia.
      rewrite depth_at_offset. fold s.
      apply delta_no_brace; intros x Hx; [apply Hfirst | apply Hnc']; lia.
    + intros i Hi.
      replace i with (start + (j + (i - start - j)))%nat by lia.
      rewrite depth_at_offset. fold s.
      apply (depth_positive s j k); try assumption; try lia.
  - intros Hnone. unfold find_balanced_function.
    destruct (find_balanced_end content start) as [e|] eqn:Hend;
      [exfalso | reflexivity].
    unfold find_balanced_end in Hend.
    apply scan_some in Hend as (k & -> & Hk & Hz & _).
    rewrite nth_error_skipn in Hk.
    apply (Hnone (start + k)%nat).
    + split; [lia|]. apply nth_error_Some. congruence.
    + exact Hk.
    + rewrite depth_at_offset. lia.
Qed.

Lemma find_balanced_depth_witness :
  (exists e j,
     find_balanced_end (lit "function f(){return{a:1}}") 0 = Some e /\
     nth_error (lit "function f(){return{a:1}}") j = Some open_brace /\
     (j < e)%nat) /\
  find_balanced_function (lit "f()") 0 = None.
Proof.
  split.
  - destruct (proj1 (find_balanced_depth (lit "function f(){return{a:1}}") 0)
                    (lit "function f(){return{a:1}}") eq_refl)
      as (e & j & Hje & _ & He & _ & _ & _ & _ & Hj & _).
    exists e, j. repeat split; [exact He | exact Hj | lia].
  - apply (proj2 (find_balanced_depth (lit "f()") 0)).
    intros e He Hc.
    do 3 (destruct e as [|e]; [discriminate|]). simpl in He. lia.
Defined.

End ExtractorFacts.

(** ** The matcher against the meaning of the patterns *)

Module ReFacts.

Import PyFacts Spec.

Section Unicode.

Variable uni_alnum : chr -> bool.

Local Abbreviation matches := (Re.matches uni_alnum).
Local Abbreviation derives := (Spec.derives uni_alnum).
Local Abbreviation search_from := (Re.search_from uni_alnum).
Local Abbreviation search := (Re.search uni_alnum).

Lemma firstn_len_app (t s : str) : firstn (len (t ++ s) - len s) (t ++ s) = t.
Proof.
  unfold len. rewrite length_app.
  replace (List.length t + List.length s - List.length s)
    with (List.length t + 0) by lia.
  rewrite firstn_app_2. simpl. apply app_nil_r.
Qed.

Lemma plus_rests_sound p : forall s s',
  In s' (plus_rests p s) ->
  exists t, s = t ++ s' /\ t <> [] /\ forallb p t = true.
Proof.
  induction s as [|c s IH]; intros s' H; simpl in H; [contradiction|].
  destruct (p c) eqn:Hc; [|contradiction].
  apply in_app_or in H as [H|[<-|[]]].
  - destruct (IH _ H) as (t & -> & _ & Ht).
    exists (c :: t). repeat split; [discriminate|]. simpl. now rewrite Hc.
  - exists [c]. repeat split; [discriminate|]. simpl. now rewrite Hc.
Qed.

Lemma plus_rests_complete p : forall t s',
  t <> [] -> forallb p t = true -> In s' (plus_rests p (t ++ s')).
Proof.
  induction t as [|c t IH]; intros s' Hne Ht; [congruence|].
  simpl in Ht. apply andb_true_iff in Ht as [Hc Ht].
  simpl. rewrite Hc. apply in_or_app.
  destruct t as [|c' t'].
  - right. now left.
  - left. apply IH; [discriminate | exact Ht].
Qed.

Lemma rep_rest_sound p : forall n s s',
  rep_rest p n s = Some s' ->
  exists t, s = t ++ s' /\ len t = n /\ forallb p t = true.
Proof.
  induction n as [|n IH]; intros s s' H; simpl in H.
  - injection H as <-. now exists [].
  - destruct s as [|c s]; [discriminate|].
    destruct (p c) eqn:Hc; [|discriminate].
    destruct (IH _ _ H) as (t & -> & <- & Ht).
    exists (c :: t). repeat split. simpl. now rewrite Hc.
Qed.

Lemma rep_rest_complete p : forall t s',
  forallb p t = true -> rep_rest p (len t) (t ++ s') = Some s'.
Proof.
  induction t as [|c t IH]; intros s' Ht; [reflexivity|].
  simpl in Ht. apply andb_true_iff in Ht as [Hc Ht].
  simpl. rewrite Hc. now apply IH.
Qed.

(** Every entry of [matches] is a match in the sense of [derives]. *)
Lemma matches_sound : forall r s g s' g',
  In (s', g') (matches r s g) ->
  exists t, s = t ++ s' /\ derives r t g g'.
Proof.
  induction r as [t|c|c n|r1 IH1 r2 IH2|r1 IH1 r2 IH2|k r IH|k];
    intros s g s' g' H; simpl in H.
  - destruct (startswith t s) eqn:E; [|contradiction].
    destruct H as [H|[]]. injection H as <- <-.
    exists t. split; [now apply startswith_inv | constructor].
  - apply in_map_iff in H as (x & Hx & Hin). injection Hx as -> <-.
    destruct (plus_rests_sound _ _ _ Hin) as (t & -> & Hne & Ht).
    exists t. split; [reflexivity | now constructor].
  - destruct (rep_rest _ n s) as [x|] eqn:E; [|contradiction].
    destruct H as [H|[]]. injection H as -> <-.
    destruct (rep_rest_sound _ _ _ _ E) as (t & -> & Hn & Ht).
    exists t. split; [reflexivity | now constructor].
  - apply in_app_or in H as [H|H].
    + destruct (IH1 _ _ _ _ H) as (t & -> & D). exists t. split; [reflexivity|].
      now apply d_alt_l.
    + destruct (IH2 _ _ _ _ H) as (t & -> & D). exists t. split; [reflexivity|].
      now apply d_alt_r.
  - apply in_flat_map in H as ([s1 g1] & H1 & H2). simpl in H2.
    destruct (IH1 _ _ _ _ H1) as (t1 & -> & D1).
    destruct (IH2 _ _ _ _ H2) as (t2 & -> & D2).
    exists (t1 ++ t2). split; [now rewrite app_assoc|].
    econstructor; eassumption.
  - apply in_map_iff in H as ([s1 g1] & Hx & Hin). simpl in Hx.
    injection Hx as -> <-.
    destruct (IH _ _ _ _ Hin) as (t & -> & D).
    exists t. split; [reflexivity|].
    rewrite firstn_len_app. now constructor.
  - destruct (get k g) as [t|] eqn:E; [|contradiction].
    destruct (startswith t s) eqn:E'; [|contradiction].
    destruct H as [H|[]]. injection H as <- <-.
    exists t. split; [now apply startswith_inv | now constructor].
Qed.

(** ... and every match in the sense of [derives] is an entry. *)
Lemma matches_complete : forall r t g g',
  derives r t g g' -> forall s', In (s', g') (matches r (t ++ s') g).
Proof.
  induction 1 as [t g|c t g Hne Ht|c n t g Hn Ht|r1 r2 t g g' _ IH
                 |r1 r2 t g g' _ IH|r1 r2 t1 t2 g g1 g2 _ IH1 _ IH2
                 |k r t g g' _ IH|k t g Hk]; intros s'; simpl.
  - rewrite startswith_app. left. f_equal. apply skipn_pre.
  - apply in_map_iff. exists s'. split; [reflexivity|].
    now apply plus_rests_complete.
  - subst n. rewrite rep_rest_complete by assumption. now left.
  - apply in_or_app. left. apply IH.
  - apply in_or_app. right. apply IH.
  - apply in_flat_map. exists (t2 ++ s', g1). split.
    + rewrite <- app_assoc. apply IH1.
    + simpl. apply IH2.
  - apply in_map_iff. exists (s', g'). simpl. split; [|apply IH].
    now rewrite firstn_len_app.
  - rewrite Hk, startswith_app. left. f_equal. apply skipn_pre.
Qed.

Lemma matches_head r s rest g l :
  matches r s [] = (rest, g) :: l ->
  exists t, s = t ++ rest /\ derives r t [] g /\ len s - len rest = len t.
Proof.
  intros E.
  destruct (matches_sound r s [] rest g) as (t & -> & D);
    [rewrite E; now left|].
  exists t. repeat split; [exact D|].
  unfold len. rewrite length_app. lia.
Qed.

(** [search] returns a match, and no match starts at a lower offset. *)
Lemma search_from_sound r : forall s pos m,
  search_from r pos s = Some m ->
  exists pre t post,
    s = pre ++ t ++ post /\
    m_start m = pos + len pre /\
    m_end m = m_start m + len t /\
    derives r t [] (m_groups m) /\
    forall pre' t' post' g',
      s = pre' ++ t' ++ post' -> len pre' < len pre ->
      ~ derives r t' [] g'.
Proof.
  assert (Hhere : forall s pos rest g l,
    matches r s [] = (rest, g) :: l ->
    exists pre t post,
      s = pre ++ t ++ post /\
      pos = pos + len pre /\
      pos + (len s - len rest) = pos + len t /\
      derives r t [] g /\
      forall pre' t' post' g',
        s = pre' ++ t' ++ post' -> len pre' < len pre ->
        ~ derives r t' [] g').
  { intros s pos rest g l E.
    destruct (matches_head _ _ _ _ _ E) as (t & -> & D & Hl).
    exists [], t, rest. repeat split; try assumption; simpl; lia. }
  induction s as [|c s IH]; intros pos m H; simpl in H.
  - destruct (matches r [] []) as [|[rest g] l] eqn:E; [discriminate|].
    injection H as <-. simpl. exact (Hhere _ pos _ _ _ E).
  - destruct (matches r (c :: s) []) as [|[rest g] l] eqn:E.
    + destruct (IH _ _ H) as (pre & t & post & -> & Hs & He & D & Hleast).
      exists (c :: pre), t, post. repeat split; try assumption.
      * rewrite Hs. simpl. lia.
      * intros [|c' pre'] t' post' g' Heq Hlt D'.
        -- simpl in Heq.
           pose proof (matches_complete _ _ _ _ D' post') as Hin.
           rewrite <- Heq, E in Hin. contradiction.
        -- simpl in Heq. injection Heq as _ Heq.
           apply (Hleast pre' t' post' g' Heq); [simpl in Hlt; lia | exact D'].
    + injection H as <-. simpl. exact (Hhere _ pos _ _ _ E).
Qed.

Lemma search_sound r content m :
  search r content = Some m ->
  exists pre t post,
    content = pre ++ t ++ post /\
    m_start m = len pre /\
    m_end m = len pre + len t /\
    derives r t [] (m_groups m) /\
    forall pre' t' post' g',
      content = pre' ++ t' ++ post' -> len pre' < len pre ->
      ~ derives r t' [] g'.
Proof.
  intros H. apply search_from_sound in H
    as (pre & t & post & -> & Hs & He & D & Hleast).
  exists pre, t, post. repeat split; try assumption; lia.
Qed.

(** [search] finds nothing only when nothing matches anywhere. *)
Lemma search_from_none r : forall s pos,
  search_from r pos s = None ->
  forall pre t post g, s = pre ++ t ++ post -> ~ derives r t [] g.
Proof.
  induction s as [|c s IH]; intros pos H pre t post g Heq D; simpl in H.
  - destruct (matches r [] []) as [|[rest g0] l] eqn:E; [|discriminate].
    symmetry in Heq. apply app_eq_nil in Heq as [-> Heq].
    pose proof (matches_complete _ _ _ _ D post) as Hin.
    simpl in Heq. rewrite Heq, E in Hin. contradiction.
  - destruct (matches r (c :: s) []) as [|[rest g0] l] eqn:E; [|discriminate].
    destruct pre as [|c' pre].
    + pose proof (matches_complete _ _ _ _ D post) as Hin.
      simpl in Heq. rewrite <- Heq, E in Hin. contradiction.
    + injection Heq as _ Heq. exact (IH _ H pre t post g Heq D).
Qed.

End Unicode.

End ReFacts.

(** ** The rewriter of enable-cowork.py *)

Module RewriterFacts.

Import PyFacts EnableCowork InjectBridge Spec.

(** The buffer and the second patch of a run on a gated function [b] nested
    in a gated function [a], once the patch of [a] has been applied: the
    fragment of [b] is gone, and [b] is reported as patched. *)
Lemma not_found_as_stated_fails : ~ not_found_as_stated.
Proof.
  intros H.
  destruct (H (lit "function a(){return{status:'supported'}}")
              (lit "function b(){return process.platform!=='darwin'?{status:'unavailable'}:{status:'supported'}}")
              (lit "function b(){return{status:'supported'}}")
              (lit "b") eq_refl) as [_ Hst].
  vm_compute in Hst. discriminate.
Qed.

(** C5, amended.  A patch whose original fragment is absent from the current
    buffer leaves the buffer as it is; it is reported as already patched
    when its replacement is in the buffer and as patched otherwise, never as
    NotFound. *)
Theorem rewrite_absent (content old new name : str) :
  contains old content = false ->
  fst (rewrite content (old, new, name)) = content /\
  snd (rewrite content (old, new, name))
    = (if contains new content then AlreadyPatched else Patched) /\
  status_of (snd (rewrite content (old, new, name))) <> NotFound.
Proof.
  intros Habs. unfold rewrite.
  assert (Hne : old <> []).
  { intros ->. now rewrite contains_nil in Habs. }
  destruct (contains new content); simpl.
  - repeat split. discriminate.
  - rewrite (replace_absent _ _ _ Hne Habs). repeat split. discriminate.
Qed.

Lemma rewrite_absent_witness :
  fst (rewrite (lit "function a(){return{status:'supported'}}")
         (lit "function b(){}", lit "function b(){return{status:'supported'}}",
          lit "b"))
  = lit "function a(){return{status:'supported'}}".
Proof.
  apply (rewrite_absent (lit "function a(){return{status:'supported'}}")
           (lit "function b(){}")
           (lit "function b(){return{status:'supported'}}") (lit "b")).
  reflexivity.
Defined.

(** C6.  When the replacement is already in the buffer, the function
    rewriter reports the patch as already patched and the secondary pass on
    [process_expose] prints nothing, and both leave the buffer as it is,
    whether or not the original fragment is in the buffer: the presence of
    the replacement is tested before any substitution. *)
Theorem replacement_present_first :
  (forall content old new name,
     contains new content = true ->
     rewrite content (old, new, name) = (content, AlreadyPatched) /\
     status_of (snd (rewrite content (old, new, name))) = AlreadyApplied)
  /\
  (forall ipc_var content,
     contains (process_fix ipc_var) content = true ->
     contains (process_expose ipc_var) content = true /\
     fix_process ipc_var content = (content, [])).
Proof.
  split.
  - intros content old new name H. unfold rewrite. rewrite H. now split.
  - intros ipc_var content H. split.
    + apply contains_iff in H as (a & b & ->). apply contains_iff.
      unfold process_fix. rewrite <- app_assoc.
      now exists (a ++ lit "K.platform='darwin';K.arch='arm64';"), b;
        rewrite <- !app_assoc.
    + unfold fix_process. rewrite H, andb_false_r. reflexivity.
Qed.

Lemma replacement_present_first_witness :
  rewrite (lit "function f(){return{status:'supported'}};function f(){}")
    (lit "function f(){}", lit "function f(){return{status:'supported'}}", lit "f")
  = (lit "function f(){return{status:'supported'}};function f(){}", AlreadyPatched)
  /\
  fix_process (lit "o")
    (lit "K.platform='darwin';K.arch='arm64';o.contextBridge.exposeInMainWorld('process',K)")
  = (lit "K.platform='darwin';K.arch='arm64';o.contextBridge.exposeInMainWorld('process',K)", []).
Proof.
  split.
  - apply (proj1 replacement_present_first). reflexivity.
  - apply (proj2 replacement_present_first). reflexivity.
Defined.

End RewriterFacts.

(** ** Runs of the two scripts *)

Module PipelineFacts.

Import PyFacts Spec InjectBridge.

Section Unicode.

Variable uni_alnum : chr -> bool.

Local Abbreviation search := (Re.search uni_alnum).
Local Abbreviation finditer := (Re.finditer uni_alnum).
Local Abbreviation patch_file := (EnableCowork.patch_file uni_alnum).
Local Abbreviation patch_mainview := (InjectBridge.patch_mainview uni_alnum).

Lemma patch_file_no_patches filepath content :
  EnableCowork.collect_patches uni_alnum content = [] ->
  patch_file filepath content =
  failed [lit "ERROR: No platform-gated functions found in " ++ filepath].
Proof. unfold EnableCowork.patch_file. now intros ->. Qed.

(** C10.  On a buffer that contains [ClaudeVM] anywhere, [patch_mainview]
    returns [True] after the one line that says so: nothing is written, the
    file is as it was, the process exits with status 0, and nothing of the
    identifier recovery or of the injection shows in the run. *)
Theorem already_patched_short_circuit (prog filepath content : str)
        (rest : list str) :
  contains (lit "ClaudeVM") content = true ->
  patch_mainview filepath content =
    {| ret := true;
       printed := [lit "  mainView.js: already patched (ClaudeVM bridge exists)"];
       written := None |} /\
  file_after content (patch_mainview filepath content) = content /\
  exit_status (main uni_alnum (prog :: filepath :: rest) content) = 0%Z /\
  file_write (main uni_alnum (prog :: filepath :: rest) content) = None.
Proof.
  intros H. unfold main, InjectBridge.patch_mainview. rewrite H.
  repeat split.
Qed.

(** C4.  Each failure of a whole pipeline (no match of the gate pattern in
    enable-cowork; no EIPC UUID, no ipcRenderer variable, no
    [exposeInMainWorld] anchor in inject-cowork-bridge) ends the run with
    [False], exit status 1 and, as last line, the error that names what is
    missing; nothing is written and the file is as it was. *)
Theorem pipeline_failure_no_write (prog filepath content : str)
        (rest : list str) :
  (finditer EnableCowork.gate_re content = [] ->
   patch_file filepath content =
     failed [lit "ERROR: No platform-gated functions found in " ++ filepath] /\
   EnableCowork.main uni_alnum (prog :: filepath :: rest) content =
     {| exit_status := 1;
        stdout := [lit "ERROR: No platform-gated functions found in " ++ filepath];
        file_write := None |} /\
   file_after content (patch_file filepath content) = content)
  /\
  (contains (lit "ClaudeVM") content = false ->
   search uuid_re content = None ->
   patch_mainview filepath content =
     failed [lit "ERROR: Could not extract EIPC UUID from " ++ filepath] /\
   main uni_alnum (prog :: filepath :: rest) content =
     {| exit_status := 1;
        stdout := [lit "ERROR: Could not extract EIPC UUID from " ++ filepath];
        file_write := None |} /\
   file_after content (patch_mainview filepath content) = content)
  /\
  (forall uuid_match,
   contains (lit "ClaudeVM") content = false ->
   search uuid_re content = Some uuid_match ->
   search ipc_re content = None ->
   patch_mainview filepath content =
     failed [lit "  EIPC UUID: " ++ group 1 uuid_match;
             lit "ERROR: Could not find ipcRenderer variable in " ++ filepath] /\
   main uni_alnum (prog :: filepath :: rest) content =
     {| exit_status := 1;
        stdout := [lit "  EIPC UUID: " ++ group 1 uuid_match;
                   lit "ERROR: Could not find ipcRenderer variable in " ++ filepath];
        file_write := None |} /\
   file_after content (patch_mainview filepath content) = content)
  /\
  (forall uuid_match ipc_match,
   contains (lit "ClaudeVM") content = false ->
   search uuid_re content = Some uuid_match ->
   search ipc_re content = Some ipc_match ->
   search anchor_re content = None ->
   patch_mainview filepath content =
     failed [lit "  EIPC UUID: " ++ group 1 uuid_match;
             lit "ERROR: Could not find contextBridge.exposeInMainWorld pattern in "
             ++ filepath] /\
   main uni_alnum (prog :: filepath :: rest) content =
     {| exit_status := 1;
        stdout := [lit "  EIPC UUID: " ++ group 1 uuid_match;
                   lit "ERROR: Could not find contextBridge.exposeInMainWorld pattern in "
                   ++ filepath];
        file_write := None |} /\
   file_after content (patch_mainview filepath content) = content).
Proof.
  split; [|split; [|split]].
  - intros H.
    assert (Hp : patch_file filepath content =
                 failed [lit "ERROR: No platform-gated functions found in " ++ filepath]).
    { apply patch_file_no_patches. unfold EnableCowork.collect_patches.
      now rewrite H. }
    unfold EnableCowork.main. rewrite Hp. repeat split.
  - intros Hc Hu. unfold main, InjectBridge.patch_mainview.
    rewrite Hc, Hu. repeat split.
  - intros mu Hc Hu Hi. unfold main, InjectBridge.patch_mainview.
    rewrite Hc, Hu, Hi. repeat split.
  - intros mu mi Hc Hu Hi Ha. unfold main, InjectBridge.patch_mainview.
    rewrite Hc, Hu, Hi, Ha. repeat split.
Qed.

(** What a run of [patch_mainview] that reaches the injection does. *)
Lemma patch_mainview_success filepath content uuid_match ipc_match m :
  contains (lit "ClaudeVM") content = false ->
  search uuid_re content = Some uuid_match ->
  search ipc_re content = Some ipc_match ->
  search anchor_re content = Some m ->
  let uuid := group 1 uuid_match in
  let ipc_var := group 1 ipc_match in
  let content1 := inject_bridge uuid ipc_var (group 2 m) (group 1 m) content in
  ret (patch_mainview filepath content) = true /\
  written (patch_mainview filepath content)
    = Some (fst (fix_process ipc_var content1)).
Proof.
  intros Hc Hu Hi Ha. unfold InjectBridge.patch_mainview.
  rewrite Hc, Hu, Hi, Ha. cbv zeta.
  destruct (fix_process _ _). split; reflexivity.
Qed.

End Unicode.

End PipelineFacts.

(** ** What the patterns of inject-cowork-bridge.py capture *)

Module PatternFacts.

Import PyFacts Spec InjectBridge.

(** One step of inversion of a derivation of a pattern that is known. *)
Ltac invert_derives :=
  repeat match goal with
    | H : Spec.derives _ (Cat _ _) _ _ _ |- _ => inversion H; subst; clear H
    | H : Spec.derives _ (Lit _) _ _ _ |- _ => inversion H; subst; clear H
    | H : Spec.derives _ (Group _ _) _ _ _ |- _ => inversion H; subst; clear H
    | H : Spec.derives _ (Plus _) _ _ _ |- _ => inversion H; subst; clear H
    | H : Spec.derives _ (Rep _ _) _ _ _ |- _ => inversion H; subst; clear H
    | H : Spec.derives _ (Backref _) _ _ _ |- _ => inversion H; subst; clear H
    end.

Section Unicode.

Variable uni_alnum : chr -> bool.

Local Abbreviation derives := (Spec.derives uni_alnum).
Local Abbreviation is_word := (Re.is_word uni_alnum).

Lemma forallb_weaken (p q : chr -> bool) (s : str) :
  (forall c, p c = true -> q c = true) ->
  forallb p s = true -> forallb q s = true.
Proof.
  intros Hpq. induction s as [|c s IH]; simpl; [reflexivity|].
  intros H. apply andb_true_iff in H as [Hc Hs].
  now rewrite (Hpq _ Hc), IH.
Qed.

Lemma hex_is_hex_or_dash c : is_hex c = true -> hex_or_dash c = true.
Proof. unfold hex_or_dash. now intros ->. Qed.

(** The UUID pattern: the prefix, then 36 characters, digits [0-9a-f] and
    dashes, which are group 1. *)
Lemma derives_uuid t g :
  derives uuid_re t [] g ->
  exists u, t = lit "$eipc_message$_" ++ u /\ g = [(1, u)] /\
            len u = 36 /\ forallb hex_or_dash u = true.
Proof.
  unfold uuid_re. intros H. invert_derives.
  eexists. split; [reflexivity|]. split; [reflexivity|]. split.
  - unfold len in *. rewrite !length_app.
    repeat match goal with H : List.length _ = _ |- _ => rewrite H; clear H end.
    reflexivity.
  - rewrite !forallb_app.
    repeat match goal with
      | H : forallb (in_class _ Hex) _ = true |- _ =>
          apply (forallb_weaken _ _ _ hex_is_hex_or_dash) in H; rewrite H; clear H
      end.
    reflexivity.
Qed.

(** The ipcRenderer pattern: group 1 is a non-empty word, and the literal
    part of the pattern follows it. *)
Lemma derives_ipc t g :
  derives ipc_re t [] g ->
  exists w, t = w ++ lit ".ipcRenderer.invoke('$eipc_message$" /\
            g = [(1, w)] /\ w <> [] /\ forallb is_word w = true.
Proof.
  unfold ipc_re. intros H. invert_derives.
  eexists. repeat split; assumption.
Qed.

(** The anchor: group 1 is the whole call, groups 2, 3 and 4 are the three
    words in it, and the back-references repeat groups 3 and 2. *)
Lemma derives_anchor t g :
  derives anchor_re t [] g ->
  exists x y z,
    t = lit "Object.keys(" ++ x ++ lit ").forEach(" ++ y ++ lit "=>" ++ z
        ++ lit ".contextBridge.exposeInMainWorld(" ++ y ++ lit "," ++ x
        ++ lit "[" ++ y ++ lit "]))" /\
    g = [(1, t); (4, z); (3, y); (2, x)] /\
    (x <> [] /\ forallb is_word x = true) /\
    (y <> [] /\ forallb is_word y = true) /\
    (z <> [] /\ forallb is_word z = true).
Proof.
  unfold anchor_re. intros H. invert_derives.
  repeat match goal with
    | H : get _ _ = Some _ |- _ => simpl in H; injection H as <-
    end.
  eexists _, _, _. repeat split; try assumption; reflexivity.
Qed.

End Unicode.

End PatternFacts.

(** ** The injector of inject-cowork-bridge.py *)

Module InjectorFacts.

Import PyFacts Spec InjectBridge ReFacts PatternFacts PipelineFacts.

Lemma app_eq_len (a b c d : str) :
  a ++ b = c ++ d -> len a = len c -> a = c /\ b = d.
Proof.
  revert c. induction a as [|x a IH]; intros [|y c] H L; simpl in *;
    try discriminate.
  - now split.
  - injection H as -> H. injection L as L.
    destruct (IH _ H L) as [-> ->]. now split.
Qed.

Section Unicode.

Variable uni_alnum : chr -> bool.

Local Abbreviation search := (Re.search uni_alnum).
Local Abbreviation derives := (Spec.derives uni_alnum).
Local Abbreviation is_word := (Re.is_word uni_alnum).
Local Abbreviation patch_mainview := (InjectBridge.patch_mainview uni_alnum).

(** The anchor that [search] finds: the text that group 1 holds is in the
    buffer at [m.start()], and nowhere before. *)
Lemma anchor_found content m :
  search anchor_re content = Some m ->
  exists pre post,
    content = pre ++ group 1 m ++ post /\
    m_start m = len pre /\
    find (group 1 m) content = Some (len pre) /\
    derives anchor_re (group 1 m) [] (m_groups m).
Proof.
  intros Hs.
  apply search_sound in Hs as (pre & t & post & Hc & Hstart & _ & D & Hleast).
  assert (Hg : group 1 m = t).
  { destruct (derives_anchor _ _ _ D) as (x & y & z & _ & Hg & _).
    unfold group. now rewrite Hg. }
  rewrite Hg. exists pre, post. repeat split; try assumption.
  destruct (find t content) as [i|] eqn:F.
  - f_equal.
    destruct (Nat.lt_trichotomy i (len pre)) as [Hlt | [Heq | Hgt]];
      [exfalso | exact Heq | exfalso].
    + pose proof (find_some _ _ _ F) as Hocc.
      pose proof (find_length _ _ _ F) as Hlen.
      apply (Hleast (firstn i content) t (skipn (i + len t) content)
                    (m_groups m) Hocc); [|exact D].
      unfold len in *. rewrite length_firstn. lia.
    + pose proof (find_some_least _ _ _ F (len pre) Hgt) as Hno.
      rewrite Hc, skipn_pre, startswith_app in Hno. discriminate.
  - exfalso. exact (find_none _ _ F pre post Hc).
Qed.

(** The injection is one splice at the anchor. *)
Lemma inject_bridge_splice content m uuid ipc_var :
  search anchor_re content = Some m ->
  exists pre post,
    content = pre ++ group 1 m ++ post /\
    m_start m = len pre /\
    find (group 1 m) content = Some (len pre) /\
    inject_bridge uuid ipc_var (group 2 m) (group 1 m) content
      = pre ++ inject_code uuid ipc_var (group 2 m) ++ lit ";"
        ++ group 1 m ++ post.
Proof.
  intros Ha.
  destruct (anchor_found _ _ Ha) as (pre & post & Hcontent & Hstart & Hfind & _).
  exists pre, post. repeat split; try assumption.
  unfold inject_bridge.
  set (original := group 1 m) in *.
  set (code := inject_code uuid ipc_var (group 2 m)).
  assert (Hin : contains original content = true).
  { apply contains_iff. now exists pre, post. }
  destruct (replace1_splice original (code ++ lit ";" ++ original) _ Hin)
    as (pre' & post' & Heq & Hfind' & ->).
  rewrite Hfind in Hfind'. injection Hfind' as Hlen.
  rewrite Hcontent in Heq at 1.
  destruct (app_eq_len _ _ _ _ Heq Hlen) as [<- Heq'].
  apply app_inv_head in Heq'. subst post'.
  now rewrite <- !app_assoc.
Qed.

(** C7.  When the anchor is found, the buffer after the injection is the
    buffer read from the file with the synthesized code and a semicolon put
    in immediately before the first occurrence of the text of the anchor,
    which is where the pattern matched; what is before and what is after
    that place is unchanged.  It is this buffer that the secondary pass then
    works on and that is written. *)
Theorem inject_before_anchor (filepath content : str)
        (uuid_match ipc_match m : rmatch) :
  contains (lit "ClaudeVM") content = false ->
  search uuid_re content = Some uuid_match ->
  search ipc_re content = Some ipc_match ->
  search anchor_re content = Some m ->
  let uuid := group 1 uuid_match in
  let ipc_var := group 1 ipc_match in
  let obj_var := group 2 m in
  let original := group 1 m in
  let code := inject_code uuid ipc_var obj_var in
  exists pre post,
    content = pre ++ original ++ post /\
    m_start m = len pre /\
    find original content = Some (len pre) /\
    inject_bridge uuid ipc_var obj_var original content
      = pre ++ code ++ lit ";" ++ original ++ post /\
    written (patch_mainview filepath content)
      = Some (fst (fix_process ipc_var
                     (pre ++ code ++ lit ";" ++ original ++ post))).
Proof.
  intros Hc Hu Hi Ha uuid ipc_var obj_var original code.
  destruct (inject_bridge_splice content m uuid ipc_var Ha)
    as (pre & post & Hcontent & Hstart & Hfind & Hsplice).
  fold original obj_var in Hcontent, Hfind, Hsplice. fold code in Hsplice.
  exists pre, post. repeat split; try assumption.
  rewrite <- Hsplice.
  destruct (patch_mainview_success uni_alnum filepath content _ _ _
              Hc Hu Hi Ha) as [_ Hw].
  exact Hw.
Qed.

End Unicode.

End InjectorFacts.

(** ** The templates of the injected code *)

Module TemplateFacts.

Import PyFacts EnableCowork InjectBridge Spec ExtractorFacts.

Local Open Scope Z_scope.

Lemma render_app env (f1 f2 : fstring) :
  render env (f1 ++ f2) = render env f1 ++ render env f2.
Proof. unfold render. apply flat_map_app. Qed.

Lemma render_cons env p (f : fstring) :
  render env (p :: f) = render_piece env p ++ render env f.
Proof. reflexivity. Qed.

Lemma brace_free_app a b :
  brace_free (a ++ b) = brace_free a && brace_free b.
Proof. unfold brace_free. apply forallb_app. Qed.

Lemma brace_free_cons c s :
  brace_free (c :: s) = true -> is_brace c = false /\ brace_free s = true.
Proof.
  unfold brace_free. simpl. intros H. apply andb_true_iff in H as [H1 H2].
  split; [now apply negb_true_iff in H1 | exact H2].
Qed.

Lemma pass_open d s : pass d (open_brace :: s) = pass (d + 1) s.
Proof. reflexivity. Qed.

Lemma pass_close d s :
  pass d (close_brace :: s) = if Z.eqb (d - 1) 0 then None else pass (d - 1) s.
Proof. reflexivity. Qed.

Lemma pass_other d c s : is_brace c = false -> pass d (c :: s) = pass d s.
Proof.
  unfold is_brace. intros H. apply orb_false_iff in H as [H1 H2].
  simpl. now rewrite H1, H2.
Qed.

Lemma pass_app : forall a d b,
  pass d (a ++ b) = match pass d a with Some d' => pass d' b | None => None end.
Proof.
  induction a as [|c a IH]; intros d b; [reflexivity|].
  simpl app. destruct (char_cases c) as [-> | [-> | Hc]].
  - rewrite !pass_open. apply IH.
  - rewrite !pass_close. destruct (Z.eqb (d - 1) 0); [reflexivity | apply IH].
  - rewrite !(pass_other _ _ _ Hc). apply IH.
Qed.

Lemma pass_brace_free : forall v d, brace_free v = true -> pass d v = Some d.
Proof.
  induction v as [|c v IH]; intros d H; [reflexivity|].
  apply brace_free_cons in H as [Hc Hv].
  rewrite (pass_other _ _ _ Hc). now apply IH.
Qed.

(** The loop of the extractor over a rendered template goes as over the
    literal pieces alone. *)
Lemma pass_render env :
  (forall x, brace_free (env x) = true) ->
  forall f d, pass d (render env f) = pass_template d f.
Proof.
  intros Henv. induction f as [|[s|x] f IH]; intros d; [reflexivity| |].
  - rewrite render_cons, pass_app. simpl.
    destruct (pass d (lit s)); [apply IH | reflexivity].
  - rewrite render_cons, pass_app. simpl.
    rewrite (pass_brace_free _ _ (Henv x)). apply IH.
Qed.

Lemma scan_pass : forall a d d' i rest,
  pass d a = Some d' -> scan d i (a ++ rest) = scan d' (i + len a) rest.
Proof.
  induction a as [|c a IH]; intros d d' i rest H.
  - injection H as <-. simpl. now rewrite Nat.add_0_r.
  - simpl app. replace (i + len (c :: a))%nat with (S i + len a)%nat
      by (unfold len; simpl; lia).
    destruct (char_cases c) as [-> | [-> | Hc]].
    + rewrite pass_open in H. rewrite scan_open. now apply IH.
    + rewrite pass_close in H. rewrite scan_close.
      destruct (Z.eqb (d - 1) 0); [discriminate | now apply IH].
    + rewrite (pass_other _ _ _ Hc) in H. rewrite (scan_other _ _ _ _ Hc).
      now apply IH.
Qed.

(** A text that the loop passes from depth 0 to depth 1, closed by a brace,
    is a block that the extractor returns whole. *)
Lemma block_of_pass a :
  pass 0 a = Some 1 ->
  find_balanced_function (a ++ [close_brace]) 0 = Some (a ++ [close_brace]).
Proof.
  intros H. unfold find_balanced_function, find_balanced_end.
  simpl skipn. rewrite (scan_pass _ _ _ 0%nat [close_brace] H), scan_close.
  simpl Z.eqb. cbv iota. f_equal. unfold slice. simpl skipn.
  replace (0 + len a + 1 - 0)%nat with (List.length (a ++ [close_brace]))
    by (unfold len; rewrite length_app; simpl; lia).
  apply firstn_all.
Qed.

Lemma level_app : forall a d b,
  level d (a ++ b) = match level d a with Some d' => level d' b | None => None end.
Proof.
  induction a as [|c a IH]; intros d b; [reflexivity|].
  simpl. destruct (Z.ltb (d + step c) 0); [reflexivity | apply IH].
Qed.

Lemma level_brace_free : forall v d,
  0 <= d -> brace_free v = true -> level d v = Some d.
Proof.
  induction v as [|c v IH]; intros d Hd H; [reflexivity|].
  apply brace_free_cons in H as [Hc Hv].
  simpl. rewrite (step_other _ Hc), Z.add_0_r.
  destruct (Z.ltb_spec d 0); [lia | now apply IH].
Qed.

Lemma level_nonneg : forall s d d', 0 <= d -> level d s = Some d' -> 0 <= d'.
Proof.
  induction s as [|c s IH]; intros d d' Hd H; simpl in H.
  - injection H as <-. exact Hd.
  - destruct (Z.ltb_spec (d + step c) 0); [discriminate|].
    eapply IH; [|eassumption]. lia.
Qed.

Lemma level_render env :
  (forall x, brace_free (env x) = true) ->
  forall f d d', 0 <= d ->
    level_template d f = Some d' -> level d (render env f) = Some d'.
Proof.
  intros Henv. induction f as [|[s|x] f IH]; intros d d' Hd H; simpl in H.
  - exact H.
  - rewrite render_cons, level_app. simpl.
    destruct (level d (lit s)) as [d1|] eqn:E; [|discriminate].
    apply IH; [|exact H]. eapply level_nonneg; eassumption.
  - rewrite render_cons, level_app. simpl.
    rewrite (level_brace_free _ _ Hd (Henv x)). now apply IH.
Qed.

(** [level] computes the depth count, and vouches for every prefix. *)
Lemma level_sound : forall s d d',
  0 <= d -> level d s = Some d' ->
  d' = d + delta s /\ forall k, 0 <= d + delta (firstn k s).
Proof.
  induction s as [|c s IH]; intros d d' Hd H; simpl in H.
  - injection H as <-. split; [cbn [delta]; lia|].
    intros k. rewrite firstn_nil. cbn [delta]. lia.
  - destruct (Z.ltb_spec (d + step c) 0) as [|Hc]; [discriminate|].
    destruct (IH _ _ Hc H) as [-> Hk]. rewrite delta_cons. split; [lia|].
    intros [|k]; [cbn [firstn delta]; lia|].
    cbn [firstn]. rewrite delta_cons. specialize (Hk k). lia.
Qed.

Lemma level_balanced s : level 0 s = Some 0 -> depth_balanced s.
Proof.
  intros H. destruct (level_sound _ _ _ (Z.le_refl 0) H) as [Hd Hk].
  split; [lia|]. intros k. specialize (Hk k). lia.
Qed.

Lemma piece_eqb_eq p q : piece_eqb p q = true -> p = q.
Proof.
  destruct p as [s|x], q as [s'|y]; simpl; try discriminate.
  - intros H. apply String.eqb_eq in H. now subst.
  - destruct x, y; simpl; congruence.
Qed.

Lemma starts_with_pieces_sound env : forall x l f,
  starts_with_pieces x l f = true ->
  exists rest, render env f = render env x ++ l ++ rest.
Proof.
  induction x as [|p x IH]; intros l [|q f] H; simpl in H; try discriminate.
  - destruct q as [s|y]; [|discriminate].
    apply startswith_inv in H.
    exists (skipn (len l) (lit s) ++ render env f).
    rewrite render_cons. cbn [render_piece render flat_map app].
    now rewrite app_assoc, <- H.
  - apply andb_true_iff in H as [Hp Hx]. apply piece_eqb_eq in Hp. subst q.
    destruct (IH _ _ Hx) as [rest Hr].
    exists rest. rewrite !render_cons, Hr. now rewrite <- app_assoc.
Qed.

(** An occurrence in the template is an occurrence in the rendered code,
    whatever the fields hold. *)
Lemma occurs_in_template_sound env x l : forall f,
  occurs_in_template x l f = true ->
  contains (render env x ++ l) (render env f) = true.
Proof.
  induction f as [|q f IH]; intros H; simpl in H.
  - rewrite orb_false_r in H. destruct x; discriminate.
  - apply orb_true_iff in H as [H|H].
    + destruct (starts_with_pieces_sound env _ _ _ H) as [rest ->].
      apply contains_iff. exists [], rest. now rewrite <- app_assoc.
    + rewrite render_cons. apply contains_app_r. now apply IH.
Qed.

End TemplateFacts.

(** ** The synthesized code *)

Module SynthesisFacts.

Import PyFacts EnableCowork InjectBridge Spec ExtractorFacts ReFacts
       PatternFacts PipelineFacts TemplateFacts.

Lemma hex_or_dash_no_brace c : hex_or_dash c = true -> negb (is_brace c) = true.
Proof.
  intros H. apply negb_true_iff. unfold is_brace.
  destruct (N.eqb_spec c open_brace) as [->|_]; [discriminate H|].
  destruct (N.eqb_spec c close_brace) as [->|_]; [discriminate H|].
  reflexivity.
Qed.

(** The code of [inject] is the one template, rendered. *)
Lemma inject_code_render uuid ipc_var obj_var :
  inject_code uuid ipc_var obj_var
  = render (env_of uuid ipc_var obj_var) inject_template.
Proof.
  unfold inject_code, inject_parts, inject_template.
  cbn [List.map join]. rewrite !render_app.
  change (render (env_of uuid ipc_var obj_var) [T ";"]) with (lit ";").
  reflexivity.
Qed.

Lemma invoke_call_render uuid ipc_var obj_var ch :
  invoke_call uuid ipc_var ch
  = render (env_of uuid ipc_var obj_var) [F INV; T "('"; F PFX]
    ++ lit ch ++ lit "'".
Proof.
  unfold invoke_call. cbn [render flat_map render_piece env_of].
  unfold inv_of, pfx_of. rewrite app_nil_r, <- !app_assoc. reflexivity.
Qed.

(** A part whose last piece ends with the closing brace of the block that
    its first opening brace opens. *)
Lemma part_is_block env (init : fstring) (t : string) (body : str) :
  (forall x, brace_free (env x) = true) ->
  lit t = body ++ [close_brace] ->
  match pass_template 0 init with
  | Some d => pass d body
  | None => None
  end = Some 1%Z ->
  find_balanced_function (render env (init ++ [T t])) 0
  = Some (render env (init ++ [T t])).
Proof.
  intros Henv Ht Hp.
  assert (Hr : render env (init ++ [T t])
               = (render env init ++ body) ++ [close_brace]).
  { rewrite render_app. cbn [render flat_map render_piece].
    now rewrite app_nil_r, Ht, app_assoc. }
  rewrite Hr. apply block_of_pass.
  now rewrite pass_app, (pass_render env Henv).
Qed.

Section Unicode.

Variable uni_alnum : chr -> bool.

Local Abbreviation search := (Re.search uni_alnum).
Local Abbreviation is_word := (Re.is_word uni_alnum).

Lemma is_word_no_brace c : is_word c = true -> negb (is_brace c) = true.
Proof.
  intros H. apply negb_true_iff. unfold is_brace.
  destruct (N.eqb_spec c open_brace) as [->|_]; [discriminate H|].
  destruct (N.eqb_spec c close_brace) as [->|_]; [discriminate H|].
  reflexivity.
Qed.

Lemma env_brace_free uuid ipc_var obj_var :
  forallb hex_or_dash uuid = true ->
  forallb is_word ipc_var = true ->
  forallb is_word obj_var = true ->
  forall x, brace_free (env_of uuid ipc_var obj_var x) = true.
Proof.
  intros Hu Hi Ho.
  apply (forallb_weaken _ _ _ hex_or_dash_no_brace) in Hu.
  apply (forallb_weaken _ _ _ is_word_no_brace) in Hi.
  apply (forallb_weaken _ _ _ is_word_no_brace) in Ho.
  intros [| |]; unfold env_of, inv_of, pfx_of; rewrite ?brace_free_app;
    unfold brace_free at 1.
  - exact Ho.
  - now rewrite Hi.
  - unfold brace_free. now rewrite Hu.
Qed.

(** What the three searches recover. *)
Lemma recovered content uuid_match ipc_match m :
  search uuid_re content = Some uuid_match ->
  search ipc_re content = Some ipc_match ->
  search anchor_re content = Some m ->
  let uuid := group 1 uuid_match in
  let ipc_var := group 1 ipc_match in
  let obj_var := group 2 m in
  (len uuid = 36 /\ forallb hex_or_dash uuid = true /\
   contains (lit "$eipc_message$_" ++ uuid) content = true) /\
  (ipc_var <> [] /\ forallb is_word ipc_var = true /\
   contains (ipc_var ++ lit ".ipcRenderer.invoke('$eipc_message$") content = true) /\
  (obj_var <> [] /\ forallb is_word obj_var = true /\
   contains (lit "Object.keys(" ++ obj_var ++ lit ").forEach(") content = true).
Proof.
  intros Hu Hi Ha. cbv zeta.
  apply search_sound in Hu as (pu & tu & qu & Hcu & _ & _ & Du & _).
  apply search_sound in Hi as (pi & ti & qi & Hci & _ & _ & Di & _).
  apply search_sound in Ha as (pa & ta & qa & Hca & _ & _ & Da & _).
  destruct (derives_uuid _ _ _ Du) as (u & -> & Hgu & Hlen & Hhex).
  destruct (derives_ipc _ _ _ Di) as (w & -> & Hgi & Hne & Hw).
  destruct (derives_anchor _ _ _ Da)
    as (x & y & z & Hta & Hga & [Hxne Hx] & _ & _).
  unfold group. rewrite Hgu, Hgi, Hga. simpl get.
  repeat split; try assumption.
  - apply contains_iff. now exists pu, qu.
  - apply contains_iff. now exists pi, qi.
  - apply contains_iff. rewrite Hca, Hta. eexists pa, _.
    rewrite <- !app_assoc. reflexivity.
Qed.

(** C8.  When the three searches succeed, the UUID, the ipcRenderer
    variable and the settings-object variable that they recover are texts of
    the buffer (a UUID of 36 characters, two non-empty words), and the
    synthesized code is the template of [inject_parts] with these three
    values in its fields: no literal piece of the template holds a channel
    prefix, an accessor or a bare settings namespace, each of the thirteen
    [invoke] calls is made of the recovered variable and of a channel string
    with the recovered UUID, and each namespace is reached through the
    recovered settings-object variable.  Each of the four statements of the
    code is a block that the extractor returns whole, and the code is
    balanced under the depth count. *)
Theorem bridge_code_binds_identifiers (content : str)
        (uuid_match ipc_match m : rmatch) :
  search uuid_re content = Some uuid_match ->
  search ipc_re content = Some ipc_match ->
  search anchor_re content = Some m ->
  let uuid := group 1 uuid_match in
  let ipc_var := group 1 ipc_match in
  let obj_var := group 2 m in
  let code := inject_code uuid ipc_var obj_var in
  let env := env_of uuid ipc_var obj_var in
  ((len uuid = 36 /\ forallb hex_or_dash uuid = true /\
    contains (lit "$eipc_message$_" ++ uuid) content = true) /\
   (ipc_var <> [] /\ forallb is_word ipc_var = true /\
    contains (ipc_var ++ lit ".ipcRenderer.invoke('$eipc_message$") content = true) /\
   (obj_var <> [] /\ forallb is_word obj_var = true /\
    contains (lit "Object.keys(" ++ obj_var ++ lit ").forEach(") content = true))
  /\
  (code = render env inject_template /\
   fields_only false inject_template = true /\
   Forall (fun ch => contains (invoke_call uuid ipc_var ch) code = true) channels /\
   Forall (fun ns => contains (obj_var ++ lit ns) code = true) namespaces)
  /\
  (Forall (fun part => find_balanced_function (render env part) 0
                       = Some (render env part)) inject_parts /\
   depth_balanced code).
Proof.
  intros Hu Hi Ha uuid ipc_var obj_var code env.
  pose proof (recovered content _ _ _ Hu Hi Ha) as Hrec. cbv zeta in Hrec.
  fold uuid ipc_var obj_var in Hrec.
  destruct Hrec as ((Hlen & Hhex & Hcu) & (Hine & Hiw & Hci) & (Hone & How & Hco)).
  assert (Henv : forall x, brace_free (env x) = true)
    by now apply env_brace_free.
  assert (Hcode : code = render env inject_template)
    by apply inject_code_render.
  split; [repeat split; assumption|]. split; [|split].
  - split; [exact Hcode|]. split; [vm_compute; reflexivity|]. split.
    + unfold channels.
      repeat (apply Forall_cons;
              [rewrite Hcode, (invoke_call_render uuid ipc_var obj_var);
               apply occurs_in_template_sound; vm_compute; reflexivity|]).
      apply Forall_nil.
    + unfold namespaces.
      repeat (apply Forall_cons;
              [rewrite Hcode;
               match goal with
               | |- contains (obj_var ++ ?l) _ = true =>
                   change (obj_var ++ l)
                     with (obj_var ++ (@nil chr) ++ l);
                   rewrite (app_assoc obj_var (@nil chr) l);
                   change (obj_var ++ [])
                     with (render env [F OBJ_VAR])
               end;
               apply occurs_in_template_sound; vm_compute; reflexivity|]).
      apply Forall_nil.
  - unfold inject_parts.
    apply Forall_cons;
      [exact (part_is_block env (removelast part_settings)
                "['claude.settings']||{}" (lit "['claude.settings']||{")
                Henv eq_refl eq_refl)|].
    apply Forall_cons;
      [exact (part_is_block env (removelast part_claudevm) "}" []
                Henv eq_refl eq_refl)|].
    apply Forall_cons;
      [exact (part_is_block env (removelast part_appfeatures) "}" []
                Henv eq_refl eq_refl)|].
    apply Forall_cons;
      [exact (part_is_block env (removelast part_sessions) "}" []
                Henv eq_refl eq_refl)|].
    apply Forall_nil.
  - rewrite Hcode. apply level_balanced.
    apply (level_render env Henv); [lia | vm_compute; reflexivity].
Qed.

End Unicode.

End SynthesisFacts.

(** ** Running a script a second time *)

Module IdempotenceFacts.

Import PyFacts EnableCowork InjectBridge Spec ReFacts PatternFacts
       PipelineFacts TemplateFacts InjectorFacts SynthesisFacts.

(** Text put into a buffer at one place leaves one of two separate
    occurrences of [x] whole. *)
Lemma insert_keeps_one (a r k x : str) :
  (exists p1 p2 p3, a ++ r = p1 ++ x ++ p2 ++ x ++ p3) ->
  contains x (a ++ k ++ r) = true.
Proof.
  intros (p1 & p2 & p3 & H).
  rewrite (app_assoc p1 x) in H.
  apply app_eq_app in H as [l [[Ha Hr] | [Ha Hr]]].
  - apply contains_app_l. apply contains_iff. exists p1, l.
    now rewrite Ha, <- app_assoc.
  - apply contains_app_r, contains_app_r. apply contains_iff.
    exists (l ++ p2), p3. now rewrite Hr, <- !app_assoc.
Qed.

(** The synthesized code names [ClaudeVM] at two separate places. *)
Lemma code_names_claudevm env :
  exists p1 p2 p3,
    render env inject_template
    = p1 ++ lit "ClaudeVM" ++ p2 ++ lit "ClaudeVM" ++ p3.
Proof.
  exists (render env (firstn 6 inject_template) ++ lit "['claude.settings']."),
         (lit "={setYukonSilverConfig:function(t){console.log('[BRIDGE] "),
         (lit ".setYukonSilverConfig called',t);return "
          ++ render env (skipn 8 inject_template)).
  change inject_template
    with (firstn 6 inject_template
          ++ [T "['claude.settings'].ClaudeVM={";
              T "setYukonSilverConfig:function(t){console.log('[BRIDGE] ClaudeVM.setYukonSilverConfig called',t);return "]
          ++ skipn 8 inject_template) at 1.
  rewrite !render_app, <- !app_assoc. f_equal.
Qed.

Section Unicode.

Variable uni_alnum : chr -> bool.

Local Abbreviation search := (Re.search uni_alnum).
Local Abbreviation patch_file := (EnableCowork.patch_file uni_alnum).
Local Abbreviation patch_mainview := (InjectBridge.patch_mainview uni_alnum).

(** A successful run of [patch_mainview] leaves [ClaudeVM] in the file. *)
Lemma patch_mainview_leaves_marker filepath content :
  ret (patch_mainview filepath content) = true ->
  contains (lit "ClaudeVM")
    (file_after content (patch_mainview filepath content)) = true.
Proof.
  intros Hret.
  destruct (contains (lit "ClaudeVM") content) eqn:Hc.
  - unfold InjectBridge.patch_mainview. now rewrite Hc.
  - destruct (search uuid_re content) as [mu|] eqn:Hu;
      [|unfold InjectBridge.patch_mainview in Hret;
        rewrite Hc, Hu in Hret; discriminate].
    destruct (search ipc_re content) as [mi|] eqn:Hi;
      [|unfold InjectBridge.patch_mainview in Hret;
        rewrite Hc, Hu, Hi in Hret; discriminate].
    destruct (search anchor_re content) as [m|] eqn:Ha;
      [|unfold InjectBridge.patch_mainview in Hret;
        rewrite Hc, Hu, Hi, Ha in Hret; discriminate].
    destruct (inject_bridge_splice uni_alnum content m (group 1 mu)
                (group 1 mi) Ha) as (pre & post & _ & _ & _ & Hsp).
    destruct (patch_mainview_success uni_alnum filepath content _ _ _
                Hc Hu Hi Ha) as [_ Hw].
    unfold file_after. rewrite Hw, Hsp. clear Hw Hsp.
    set (code := inject_code (group 1 mu) (group 1 mi) (group 2 m)).
    set (tail := lit ";" ++ group 1 m ++ post).
    assert (Htwo : exists p1 p2 p3,
               pre ++ code ++ tail
               = p1 ++ lit "ClaudeVM" ++ p2 ++ lit "ClaudeVM" ++ p3).
    { unfold code. rewrite inject_code_render.
      destruct (code_names_claudevm
                  (env_of (group 1 mu) (group 1 mi) (group 2 m)))
        as (p1 & p2 & p3 & ->).
      exists (pre ++ p1), p2, (p3 ++ tail). now rewrite <- !app_assoc. }
    unfold fix_process.
    destruct (contains (process_expose (group 1 mi)) (pre ++ code ++ tail)
              && negb (contains (process_fix (group 1 mi)) (pre ++ code ++ tail)))
      eqn:Hcond; cbn [fst].
    + apply andb_true_iff in Hcond as [Hpe _].
      destruct (replace1_splice _ (process_fix (group 1 mi)) _ Hpe)
        as (a & b & Hab & _ & ->).
      unfold process_fix. rewrite <- app_assoc.
      apply insert_keeps_one. now rewrite <- Hab.
    + destruct Htwo as (p1 & p2 & p3 & ->).
      apply contains_iff. now exists p1, (p2 ++ lit "ClaudeVM" ++ p3).
Qed.

(** X1.  The injection pipeline is idempotent: after a run that succeeds, a
    second run on the file reports it as already patched, returns [True]
    and writes nothing. *)
Lemma patch_mainview_idempotent filepath content :
  ret (patch_mainview filepath content) = true ->
  let content' := file_after content (patch_mainview filepath content) in
  patch_mainview filepath content' =
    {| ret := true;
       printed := [lit "  mainView.js: already patched (ClaudeVM bridge exists)"];
       written := None |} /\
  file_after content' (patch_mainview filepath content') = content'.
Proof.
  intros Hret content'.
  pose proof (patch_mainview_leaves_marker filepath content Hret) as Hm.
  fold content' in Hm.
  unfold InjectBridge.patch_mainview. rewrite Hm. now split.
Qed.

(** C1, at the scenario of the specification.  The first run of
    enable-cowork on the gated function patches it and succeeds.  The second
    run, on the file that the first run wrote, finds no gated function: it
    prints the error, returns [False] and the process exits with status 1;
    it writes nothing, so the file stays as the first run left it. *)
Theorem enable_cowork_second_run_fails :
  let gated := lit "function isFoo(){return process.platform!=='darwin'?{status:'unsupported'}:{status:'supported'}}" in
  let patched := lit "function isFoo(){return{status:'supported'}}" in
  let argv := [lit "patches/enable-cowork.py"; lit "index.js"] in
  patch_file (lit "index.js") gated =
    {| ret := true;
       printed := [lit "  isFoo(): patched -> {status:'supported'}";
                   lit "SUCCESS: Patched 1 function(s) in index.js"];
       written := Some patched |} /\
  patch_file (lit "index.js") patched =
    {| ret := false;
       printed := [lit "ERROR: No platform-gated functions found in index.js"];
       written := None |} /\
  EnableCowork.main uni_alnum argv patched =
    {| exit_status := 1;
       stdout := [lit "ERROR: No platform-gated functions found in index.js"];
       file_write := None |} /\
  file_after patched (patch_file (lit "index.js") patched) = patched.
Proof. vm_compute. repeat split. Qed.

End Unicode.

End IdempotenceFacts.

(** ** More on the balanced-block extractor *)

Module ExtractorMore.

Import PyFacts EnableCowork Spec ExtractorFacts TemplateFacts.

Local Open Scope Z_scope.

(** From a positive depth the loop returns at the end of as many balanced
    texts, each closed by a brace, as the depth on entry. *)
Lemma scan_closes : forall s d i e,
  scan (Z.of_nat (S d)) i s = Some e ->
  exists k, e = (i + k)%nat /\ (k < len s)%nat /\
            closes (S d) (firstn (S k) s).
Proof.
  induction s as [|c s IH]; intros d i e H; [discriminate|].
  destruct (char_cases c) as [-> | [-> | Hc]].
  - rewrite scan_open in H.
    replace (Z.of_nat (S d) + 1) with (Z.of_nat (S (S d))) in H by lia.
    apply IH in H as (k & -> & Hk & Hcl).
    exists (S k). split; [lia|]. split; [unfold len in *; simpl; lia|].
    change (firstn (S (S k)) (open_brace :: s))
      with (open_brace :: firstn (S k) s).
    remember (firstn (S k) s) as f eqn:Hf. clear Hf.
    inversion Hcl as [|d0 n0 w0 s0 Hb0 Hcl0]; subst.
    inversion Hcl0 as [|d1 n1 w1 s1 Hb1 Hcl1]; subst.
    replace (open_brace :: w0 ++ close_brace :: w1 ++ close_brace :: s1)
      with ((open_brace :: w0 ++ close_brace :: w1) ++ close_brace :: s1)
      by (simpl; now rewrite <- app_assoc).
    eapply closes_cons; [|exact Hcl1]. apply bal_pair; eassumption.
  - rewrite scan_close in H. destruct d as [|d].
    + simpl in H. injection H as <-. exists 0%nat.
      split; [lia|]. split; [unfold len; simpl; lia|].
      change (firstn 1 (close_brace :: s)) with ([] ++ close_brace :: []).
      eapply closes_cons; constructor.
    + replace (Z.of_nat (S (S d)) - 1) with (Z.of_nat (S d)) in H by lia.
      destruct (Z.eqb_spec (Z.of_nat (S d)) 0) as [E|_]; [lia|].
      apply IH in H as (k & -> & Hk & Hcl).
      exists (S k). split; [lia|]. split; [unfold len in *; simpl; lia|].
      change (firstn (S (S k)) (close_brace :: s))
        with ([] ++ close_brace :: firstn (S k) s).
      eapply closes_cons; [apply bal_nil | exact Hcl].
  - rewrite (scan_other _ _ _ _ Hc) in H.
    apply IH in H as (k & -> & Hk & Hcl).
    exists (S k). split; [lia|]. split; [unfold len in *; simpl; lia|].
    change (firstn (S (S k)) (c :: s)) with (c :: firstn (S k) s).
    remember (firstn (S k) s) as f eqn:Hf. clear Hf.
    inversion Hcl as [|d0 n0 w0 s0 Hb0 Hcl0]; subst.
    change (c :: w0 ++ close_brace :: s0)
      with ((c :: w0) ++ close_brace :: s0).
    eapply closes_cons; [|exact Hcl0]. apply bal_chr; eassumption.
Qed.

Lemma closes_one (f : str) :
  closes 1 f -> exists n w, f = w ++ [close_brace] /\ balanced n w.
Proof.
  intros H. inversion H as [|d0 n w s0 Hb Hcl0]; subst.
  inversion Hcl0; subst. now exists n, w.
Qed.

(** The extractor after a header without braces: the loop returns inside
    the text after the first opening brace, at the end of one balanced text
    closed by a brace. *)
Lemma header_block (pre hd r frag : str) :
  brace_free hd = true ->
  find_balanced_function (pre ++ hd ++ open_brace :: r) (len pre) = Some frag ->
  exists k, (k < len r)%nat /\ closes 1 (firstn (S k) r) /\
            frag = hd ++ open_brace :: firstn (S k) r.
Proof.
  intros Hhd H. unfold find_balanced_function, find_balanced_end in H.
  rewrite skipn_pre in H.
  rewrite (scan_pass hd 0 0 _ _ (pass_brace_free _ _ Hhd)), scan_open in H.
  destruct (scan (0 + 1) (S (len pre + len hd)) r) as [e|] eqn:Hs;
    [|discriminate].
  injection H as <-.
  apply (scan_closes r 0) in Hs as (k & -> & Hk & Hcl).
  exists k. split; [exact Hk|]. split; [exact Hcl|].
  unfold slice. rewrite skipn_pre.
  replace (S (len pre + len hd) + k + 1 - len pre)%nat
    with (List.length hd + S (S k))%nat by (unfold len; lia).
  now rewrite firstn_app_2.
Qed.

(** X3.  When the start offset is followed by a header without braces and then
    an opening brace, what the extractor returns is the header and one
    correctly nested block: a whole function, not a part of one. *)
Theorem extraction_sound (pre hd r frag : str) :
  brace_free hd = true ->
  find_balanced_function (pre ++ hd ++ open_brace :: r) (len pre) = Some frag ->
  exists n w post,
    r = w ++ close_brace :: post /\
    balanced n w /\
    nested (S n) (open_brace :: w ++ [close_brace]) /\
    frag = hd ++ open_brace :: w ++ [close_brace].
Proof.
  intros Hhd H.
  destruct (header_block _ _ _ _ Hhd H) as (k & _ & Hcl & ->).
  destruct (closes_one _ Hcl) as (n & w & Hf & Hb).
  exists n, w, (skipn (S k) r).
  split.
  { rewrite <- (firstn_skipn (S k) r) at 1. now rewrite Hf, <- app_assoc. }
  split; [exact Hb|]. split; [now constructor|].
  now rewrite Hf.
Qed.

Lemma extraction_sound_witness :
  exists n w post,
    lit "return{a:{}}};g()" = w ++ close_brace :: post /\
    balanced n w /\
    nested (S n) (open_brace :: w ++ [close_brace]) /\
    lit "function f(){return{a:{}}}" = lit "function f()" ++ open_brace :: w ++ [close_brace].
Proof.
  apply (extraction_sound (lit "x;") (lit "function f()")
           (lit "return{a:{}}};g()") (lit "function f(){return{a:{}}}"));
    reflexivity.
Defined.

(** X4.  The extractor returns nothing when the start offset is at or past the
    end of the buffer, and when no closing brace follows the start offset. *)
Theorem find_balanced_none_edges (content : str) (start : nat) :
  (len content <= start)%nat \/
  (forall i, (start <= i)%nat -> nth_error content i <> Some close_brace) ->
  find_balanced_function content start = None.
Proof.
  intros H. unfold find_balanced_function, find_balanced_end.
  destruct (scan 0 start (skipn start content)) as [e|] eqn:Hs;
    [exfalso | reflexivity].
  apply scan_some in Hs as (k & -> & Hk & _).
  rewrite nth_error_skipn in Hk.
  destruct H as [H|H].
  - assert (nth_error content (start + k) = None)
      by (apply nth_error_None; unfold len in H; lia).
    congruence.
  - apply (H (start + k)%nat); [lia | exact Hk].
Qed.

Lemma find_balanced_none_edges_witness :
  find_balanced_function (lit "f(){}") 5 = None /\
  find_balanced_function (lit "f(){{") 0 = None.
Proof.
  split.
  - apply find_balanced_none_edges. left. simpl. lia.
  - apply find_balanced_none_edges. right. intros i _.
    do 5 (destruct i as [|i]; [discriminate|]). destruct i; discriminate.
Defined.

Lemma fragment_substring (content : str) (start : nat) (frag : str) :
  find_balanced_function content start = Some frag ->
  content = firstn start content ++ frag ++ skipn (start + len frag) content.
Proof.
  intros H. unfold find_balanced_function in H.
  destruct (find_balanced_end content start) as [e|] eqn:Hend; [|discriminate].
  injection H as <-. unfold find_balanced_end in Hend.
  apply scan_some in Hend as (k & -> & Hk & _).
  assert (Hks : (k < List.length (skipn start content))%nat)
    by (apply nth_error_Some; congruence).
  unfold slice.
  replace (start + k + 1 - start)%nat with (S k) by lia.
  unfold len. rewrite length_firstn, Nat.min_l by lia.
  rewrite <- (firstn_skipn start content) at 1. f_equal.
  rewrite <- (firstn_skipn (S k) (skipn start content)) at 1. f_equal.
  rewrite skipn_skipn. f_equal. lia.
Qed.

(** X5.  A fragment that the extractor returns is a part of the buffer: it
    starts at the start offset, lies within the buffer, has at least two
    characters, ends with a closing brace and holds as many opening as
    closing braces. *)
Theorem fragment_in_bounds (content : str) (start : nat) (frag : str) :
  find_balanced_function content start = Some frag ->
  (start < len content)%nat /\
  (2 <= len frag)%nat /\
  (start + len frag <= len content)%nat /\
  content = firstn start content ++ frag ++ skipn (start + len frag) content /\
  nth_error frag (len frag - 1) = Some close_brace /\
  delta frag = 0.
Proof.
  intros H. unfold find_balanced_function in H.
  destruct (find_balanced_end content start) as [e|] eqn:Hend; [|discriminate].
  injection H as <-. unfold find_balanced_end in Hend.
  apply scan_some in Hend as (k & -> & Hk & Hz & _).
  set (s := skipn start content) in *.
  assert (Hks : (k < List.length s)%nat)
    by (apply nth_error_Some; congruence).
  assert (Hls : List.length s = (len content - start)%nat)
    by (unfold s, len; apply length_skipn).
  assert (Hfrag : slice content start (start + k + 1) = firstn (S k) s).
  { unfold slice. fold s. f_equal. lia. }
  rewrite Hfrag.
  assert (Hlen : len (firstn (S k) s) = S k).
  { unfold len. rewrite length_firstn. lia. }
  rewrite Hlen.
  assert (Hpos : 0 < delta (firstn k s)).
  { rewrite (delta_firstn_S _ _ _ Hk), step_close in Hz. lia. }
  split; [lia|]. split.
  { destruct k as [|k]; [cbn [firstn delta] in Hpos; lia | lia]. }
  split; [lia|]. split.
  { rewrite <- (firstn_skipn start content) at 1. f_equal.
    fold s. rewrite <- (firstn_skipn (S k) s) at 1. f_equal.
    unfold s. rewrite skipn_skipn. f_equal. lia. }
  split.
  { replace (S k - 1)%nat with k by lia.
    rewrite nth_error_firstn.
    destruct (Nat.ltb_spec k (S k)); [exact Hk | lia]. }
  lia.
Qed.

Lemma fragment_in_bounds_witness :
  (2 <= len (lit "f(){}"))%nat.
Proof.
  apply (fragment_in_bounds (lit "a;f(){};b") 2 (lit "f(){}")). reflexivity.
Defined.

End ExtractorMore.


(** ** More on the rewriting steps *)

Module RewriterMore.

Import PyFacts EnableCowork InjectBridge Spec.

Lemma startswith_cons_nonempty (old s : str) :
  old <> [] -> startswith old s = true -> s <> [].
Proof. intros Hne H ->. apply startswith_nil_r in H. contradiction. Qed.

(** [replace] puts [new] wherever it finds [old]: after it, [new] is in the
    text when [old] was. *)
Lemma replace_from_introduces (old new : str) : forall s,
  old <> [] -> contains old s = true ->
  contains new (replace_from old new 0 s) = true.
Proof.
  intros s Hne. induction s as [|c s IH]; intros H.
  - apply contains_iff in H as (a & b & H). symmetry in H.
    apply app_eq_nil in H as [_ H]. apply app_eq_nil in H as [H _].
    contradiction.
  - rewrite replace_from_cons. destruct (startswith old (c :: s)) eqn:E.
    + apply contains_app_l, contains_refl.
    + apply (contains_app_r new [c]). apply IH.
      apply contains_iff in H as (a & b & H).
      destruct a as [|x a].
      * simpl in H. rewrite H, startswith_app in E. discriminate.
      * injection H as _ H. apply contains_iff. now exists a, b.
Qed.

Lemma interleave_starts (new s : str) : exists r, interleave new s = new ++ r.
Proof. destruct s; simpl; [exists []; now rewrite app_nil_r | eexists; reflexivity]. Qed.

Lemma replace_introduces (old new s : str) :
  contains old s = true -> contains new (replace old new s) = true.
Proof.
  intros H. destruct old as [|a old].
  - simpl. destruct (interleave_starts new s) as [r ->].
    apply contains_app_l, contains_refl.
  - apply replace_from_introduces; [discriminate | exact H].
Qed.

(** X6.  One turn of the rewriting loop is idempotent: when the original or the
    replacement of a patch is in the buffer, the replacement is in the
    buffer after the turn, and a second turn for the same patch reports it
    as already patched and leaves the buffer as the first turn left it. *)
Theorem rewrite_twice (content old new name : str) :
  contains old content = true \/ contains new content = true ->
  contains new (fst (rewrite content (old, new, name))) = true /\
  rewrite (fst (rewrite content (old, new, name))) (old, new, name)
  = (fst (rewrite content (old, new, name)), AlreadyPatched).
Proof.
  intros H.
  assert (Hin : contains new (fst (rewrite content (old, new, name))) = true).
  { unfold rewrite. destruct (contains new content) eqn:Hn; [exact Hn|].
    destruct H as [H|H]; [|discriminate].
    cbn [fst]. now apply replace_introduces. }
  split; [exact Hin|].
  unfold rewrite at 1. now rewrite Hin.
Qed.

Lemma rewrite_twice_witness :
  rewrite (lit "a;function f(){return{status:'supported'}};b")
    (lit "function f(){}", lit "function f(){return{status:'supported'}}", lit "f")
  = (lit "a;function f(){return{status:'supported'}};b", AlreadyPatched).
Proof.
  apply (rewrite_twice (lit "a;function f(){};b") (lit "function f(){}")
           (lit "function f(){return{status:'supported'}}") (lit "f")).
  left. reflexivity.
Defined.

(** X7.  The loop prints one line for each patch, in the order of the patches:
    the line of its name that says patched, or the one that says already
    patched. *)
Theorem rewrite_all_reports : forall (ps : list patch) (content : str)
                                     (out : list str),
  exists lines,
    snd (rewrite_all content out ps) = out ++ lines /\
    Forall2 (fun (p : patch) l =>
               l = report_line (snd p) Patched \/
               l = report_line (snd p) AlreadyPatched) ps lines.
Proof.
  induction ps as [|p ps IH]; intros content out.
  - exists []. split; [simpl; now rewrite app_nil_r | constructor].
  - cbn [rewrite_all].
    destruct (rewrite content p) as [content' r] eqn:Hr.
    destruct (IH content' (out ++ [report_line (snd p) r]))
      as (lines & Hl & Hall).
    exists (report_line (snd p) r :: lines). split.
    + rewrite Hl, <- app_assoc. reflexivity.
    + constructor; [|exact Hall]. destruct r; auto.
Qed.

(** X8.  The secondary pass: when [process_expose] is in the buffer and
    [process_fix] is not, the platform override is put in immediately before
    the first occurrence of [process_expose] and one line is printed;
    otherwise the buffer is left as it is and nothing is printed.  In both
    cases a second pass on the result changes nothing and prints nothing. *)
Theorem fix_process_once (ipc_var content : str) :
  (contains (process_expose ipc_var) content = true ->
   contains (process_fix ipc_var) content = false ->
   exists pre post,
     content = pre ++ process_expose ipc_var ++ post /\
     find (process_expose ipc_var) content = Some (len pre) /\
     fix_process ipc_var content
     = (pre ++ lit "K.platform='darwin';K.arch='arm64';"
            ++ process_expose ipc_var ++ post,
        [lit "  Patched window.process.platform/arch -> darwin/arm64"]))
  /\
  (contains (process_expose ipc_var) content = false ->
   fix_process ipc_var content = (content, []))
  /\
  fix_process ipc_var (fst (fix_process ipc_var content))
  = (fst (fix_process ipc_var content), []).
Proof.
  split; [|split].
  - intros He Hf.
    destruct (replace1_splice _ (process_fix ipc_var) _ He)
      as (pre & post & Hc & Hfind & Hr).
    exists pre, post. split; [exact Hc|]. split; [exact Hfind|].
    unfold fix_process. rewrite He, Hf, Hr. cbn [negb andb].
    unfold process_fix. now rewrite <- app_assoc.
  - intros He. unfold fix_process. now rewrite He.
  - unfold fix_process at 2 3.
    destruct (contains (process_expose ipc_var) content
              && negb (contains (process_fix ipc_var) content)) eqn:Hcond;
      cbn [fst].
    + apply andb_true_iff in Hcond as [He _].
      destruct (replace1_splice _ (process_fix ipc_var) _ He)
        as (pre & post & _ & _ & ->).
      unfold fix_process.
      assert (Hin : contains (process_fix ipc_var)
                      (pre ++ process_fix ipc_var ++ post) = true).
      { apply contains_iff. now exists pre, post. }
      now rewrite Hin, andb_false_r.
    + unfold fix_process. now rewrite Hcond.
Qed.

Lemma fix_process_once_witness :
  exists pre post,
    lit "a;o.contextBridge.exposeInMainWorld('process',K)"
    = pre ++ process_expose (lit "o") ++ post /\
    find (process_expose (lit "o"))
      (lit "a;o.contextBridge.exposeInMainWorld('process',K)") = Some (len pre).
Proof.
  destruct (proj1 (fix_process_once (lit "o")
              (lit "a;o.contextBridge.exposeInMainWorld('process',K)"))
              eq_refl eq_refl) as (pre & post & H1 & H2 & _).
  now exists pre, post.
Defined.

End RewriterMore.

(** ** More on the runs of enable-cowork.py *)

Module PipelineMore.

Import PyFacts EnableCowork Spec ReFacts PatternFacts ExtractorFacts
       TemplateFacts ExtractorMore RewriterMore.

Lemma count_from_cons (sub : str) c s :
  count_from sub 0 (c :: s) =
  if startswith sub (c :: s)
  then S (count_from sub (len sub - 1) s)
  else count_from sub 0 s.
Proof. reflexivity. Qed.

Lemma contains_cons_false (sub : str) c s :
  startswith sub (c :: s) = false -> contains sub s = false ->
  contains sub (c :: s) = false.
Proof.
  unfold contains. intros H1 H2. cbn [find]. rewrite H1.
  now destruct (find sub s).
Qed.

(** [s.count(sub)] is zero exactly when [sub] is not in [s]. *)
Lemma count_zero_iff (sub s : str) :
  sub <> [] -> (Py.count sub s = 0 <-> contains sub s = false).
Proof.
  intros Hne. destruct sub as [|a sub]; [congruence|]. cbn [Py.count].
  induction s as [|c s IH].
  - split; reflexivity.
  - rewrite count_from_cons. split.
    + destruct (startswith (a :: sub) (c :: s)) eqn:E; [discriminate|].
      intros H. apply contains_cons_false; [exact E | now apply IH].
    + intros H. rewrite (contains_head _ _ H). apply IH.
      now apply contains_tail in H.
Qed.

(** The length of [s.replace(old, new)], from [s.count(old)]. *)
Lemma replace_from_length (old new : str) :
  old <> [] ->
  forall s k,
    len (replace_from old new k s) + count_from old k s * len old + Nat.min k (len s)
    = len s + count_from old k s * len new.
Proof.
  intros Hne. induction s as [|c s IH]; intros k.
  - simpl. lia.
  - destruct k as [|k].
    + rewrite replace_from_cons, count_from_cons.
      destruct (startswith old (c :: s)) eqn:E.
      * pose proof (startswith_length _ _ E) as Hl.
        specialize (IH (len old - 1)).
        assert (0 < len old) by (destruct old; [congruence | unfold len; simpl; lia]).
        unfold len in *. rewrite length_app. simpl in *.
        rewrite Nat.min_l in IH by lia. lia.
      * specialize (IH 0). unfold len in *. simpl in *. lia.
    + specialize (IH k). unfold len in *. simpl in *. lia.
Qed.

Lemma replace_length (old new s : str) :
  old <> [] ->
  len (replace old new s) + Py.count old s * len old
  = len s + Py.count old s * len new.
Proof.
  intros Hne. destruct old as [|a old]; [congruence|].
  pose proof (replace_from_length (a :: old) new Hne s 0) as H.
  cbn [replace Py.count]. simpl Nat.min in H. lia.
Qed.

Section Unicode.

Variable uni_alnum : chr -> bool.

Local Abbreviation derives := (Spec.derives uni_alnum).
Local Abbreviation is_word := (Re.is_word uni_alnum).
Local Abbreviation matches := (Re.matches uni_alnum).
Local Abbreviation finditer := (Re.finditer uni_alnum).
Local Abbreviation patch_file := (EnableCowork.patch_file uni_alnum).
Local Abbreviation collect_patches := (EnableCowork.collect_patches uni_alnum).

(** X9.  What is written on success: the buffer that the rewriting loop leaves,
    with each [titleBarStyle] option that a left-to-right scan finds taken
    out.  The file is shorter than that buffer by the length of the option
    for each one that the [Removed] line counts, and that line is printed
    only when the count is not zero, which is when the option is in the
    buffer. *)
Theorem patch_file_title_bar (filepath content : str) :
  collect_patches content <> [] ->
  let patches := collect_patches content in
  let content1 := fst (rewrite_all content [] patches) in
  let n := Py.count title_bar content1 in
  written (patch_file filepath content)
  = Some (replace title_bar [] content1) /\
  len (replace title_bar [] content1) + n * 23 = len content1 /\
  (n = 0 <-> contains title_bar content1 = false) /\
  printed (patch_file filepath content)
  = snd (rewrite_all content [] patches)
    ++ (if Nat.eqb n 0 then []
        else [lit "  Removed " ++ str_of_nat n
              ++ lit " titleBarStyle:'hidden' (Linux native frame)"])
    ++ [lit "SUCCESS: Patched " ++ str_of_nat (List.length patches)
        ++ lit " function(s) in " ++ filepath].
Proof.
  intros Hne. cbv zeta.
  assert (Htb : title_bar <> []) by discriminate.
  unfold EnableCowork.patch_file.
  destruct (collect_patches content) as [|p ps] eqn:Hp; [contradiction|].
  destruct (rewrite_all content [] (p :: ps)) as [c1 out1] eqn:Hra.
  cbn [fst snd].
  pose proof (replace_length title_bar [] c1 Htb) as Hlen.
  change (len title_bar) with 23 in Hlen. change (len []) with 0 in Hlen.
  pose proof (count_zero_iff title_bar c1 Htb) as Hz.
  destruct (Py.count title_bar c1) as [|n'] eqn:Hn.
  - cbn [written printed Nat.eqb app]. repeat split; try tauto; try lia.
    f_equal. symmetry. apply replace_absent; [exact Htb | now apply Hz].
  - cbn [written printed Nat.eqb]. repeat split; try tauto; try lia.
    now rewrite <- app_assoc.
Qed.

(** Every match that [finditer] yields is a match of the pattern at its
    start offset. *)
Lemma finditer_from_sound r : forall s skip pos m,
  In m (Re.finditer_from uni_alnum r skip pos s) ->
  exists pre t post,
    s = pre ++ t ++ post /\
    m_start m = pos + len pre /\
    derives r t [] (m_groups m).
Proof.
  assert (Hhere : forall s pos rest g l,
             matches r s [] = (rest, g) :: l ->
             exists pre t post,
               s = pre ++ t ++ post /\ pos = pos + len pre /\ derives r t [] g).
  { intros s pos rest g l E.
    destruct (matches_head uni_alnum _ _ _ _ _ E) as (t & -> & D & _).
    exists [], t, rest. repeat split; [simpl; lia | exact D]. }
  assert (Hshift : forall c s pos m,
             (exists pre t post,
                s = pre ++ t ++ post /\ m_start m = S pos + len pre /\
                derives r t [] (m_groups m)) ->
             exists pre t post,
               c :: s = pre ++ t ++ post /\ m_start m = pos + len pre /\
               derives r t [] (m_groups m)).
  { intros c s pos m (pre & t & post & -> & Hs & D).
    exists (c :: pre), t, post. repeat split; [|exact D].
    rewrite Hs. unfold len. simpl. lia. }
  induction s as [|c s IH]; intros skip pos m H.
  - destruct skip as [|k]; simpl in H; [|contradiction].
    destruct (matches r [] []) as [|[rest g] l] eqn:E; [contradiction|].
    destruct H as [<-|[]]. exact (Hhere _ pos _ _ _ E).
  - destruct skip as [|k]; simpl in H.
    + destruct (matches r (c :: s) []) as [|[rest g] l] eqn:E.
      * apply Hshift. exact (IH _ _ _ H).
      * destruct H as [<-|H]; [exact (Hhere _ pos _ _ _ E)|].
        apply Hshift. exact (IH _ _ _ H).
    + apply Hshift. exact (IH _ _ _ H).
Qed.

(** What the gate pattern matches: the keyword, white space, a name (group
    1), the start of the body up to the status that says unsupported or
    unavailable. *)
Lemma derives_gate t g :
  derives gate_re t [] g ->
  exists ws name ws' kind,
    t = lit "function" ++ ws ++ name ++ lit "(){return" ++ ws'
        ++ lit "process.platform!=='darwin'?{status:'" ++ kind ++ lit "'" /\
    g = [(1, name)] /\
    (ws <> [] /\ forallb is_space ws = true) /\
    (name <> [] /\ forallb is_word name = true) /\
    (ws' <> [] /\ forallb is_space ws' = true) /\
    (kind = lit "unsupported" \/ kind = lit "unavailable").
Proof.
  unfold gate_re. intros H. invert_derives.
  match goal with
  | H : Spec.derives _ (Alt _ _) _ _ _ |- _ => inversion H; subst; clear H
  end; invert_derives;
    eexists _, _, _, _; repeat split; try eassumption; auto.
Qed.

Lemma is_space_no_brace c : is_space c = true -> negb (is_brace c) = true.
Proof.
  intros H. apply negb_true_iff. unfold is_brace.
  destruct (N.eqb_spec c open_brace) as [->|_]; [discriminate H|].
  destruct (N.eqb_spec c close_brace) as [->|_]; [discriminate H|].
  reflexivity.
Qed.

(** X10.  Every patch that the first loop collects is for a whole function: its
    original fragment is in the buffer and is the keyword, white space, the
    name, the empty parameter list and one correctly nested block of braces;
    its name is the word that the pattern captured and its replacement is
    the function of that same name that returns the supported status. *)
Theorem collected_patches_whole_functions (content old new name : str) :
  In (old, new, name) (collect_patches content) ->
  (name <> [] /\ forallb is_word name = true) /\
  new = replacement_for name /\
  exists pre post ws n w,
    content = pre ++ old ++ post /\
    (ws <> [] /\ forallb is_space ws = true) /\
    balanced n w /\
    old = lit "function" ++ ws ++ name ++ lit "()"
          ++ open_brace :: w ++ [close_brace].
Proof.
  intros H. unfold EnableCowork.collect_patches in H.
  apply in_flat_map in H as (m & Hm & Hp).
  apply finditer_from_sound in Hm as (pre & t & post0 & Hc & Hstart & D).
  simpl in Hstart.
  destruct (derives_gate _ _ D)
    as (ws & nm & ws' & kind & Ht & Hg & [Hws Hwsp] & [Hnm Hnmw] & _ & _).
  assert (Hgroup : group 1 m = nm) by (unfold group; now rewrite Hg).
  unfold patch_of in Hp. rewrite Hgroup, Hstart in Hp.
  set (hd := lit "function" ++ ws ++ nm ++ lit "()").
  set (r := lit "return" ++ ws'
            ++ lit "process.platform!=='darwin'?{status:'" ++ kind ++ lit "'"
            ++ post0).
  assert (Hcontent : content = pre ++ hd ++ open_brace :: r).
  { rewrite Hc, Ht. unfold hd, r. rewrite <- !app_assoc. reflexivity. }
  assert (Hhd : brace_free hd = true).
  { unfold hd. rewrite !brace_free_app.
    apply (forallb_weaken _ _ _ is_space_no_brace) in Hwsp.
    apply (forallb_weaken _ _ _ (SynthesisFacts.is_word_no_brace uni_alnum)) in Hnmw.
    unfold brace_free at 2 3. now rewrite Hwsp, Hnmw. }
  destruct (find_balanced_function content (len pre)) as [[|c frag]|] eqn:Hf;
    try contradiction.
  destruct Hp as [Hp|[]]. injection Hp as <- <- <-.
  split; [now split|]. split; [reflexivity|].
  rewrite Hcontent in Hf.
  pose proof (fragment_substring _ _ _ Hf) as Hsub. rewrite <- Hcontent in Hsub.
  destruct (header_block _ _ _ _ Hhd Hf) as (k & _ & Hcl & Hfrag).
  destruct (closes_one _ Hcl) as (n & w & Hfw & Hb).
  exists (firstn (len pre) content),
         (skipn (len pre + len (c :: frag)) content), ws, n, w.
  split; [exact Hsub|]. split; [now split|]. split; [exact Hb|].
  rewrite Hfrag, Hfw. unfold hd. now rewrite <- !app_assoc.
Qed.

(** X11.  The file is written exactly when the run succeeds, and the run succeeds
    exactly when the first loop collected a patch. *)
Theorem patch_file_writes_iff_success (filepath content : str) :
  (ret (patch_file filepath content) = true <-> collect_patches content <> []) /\
  (ret (patch_file filepath content) = true
   <-> written (patch_file filepath content) <> None) /\
  (ret (patch_file filepath content) = false ->
   file_after content (patch_file filepath content) = content).
Proof.
  unfold EnableCowork.patch_file, file_after.
  destruct (collect_patches content) as [|p ps] eqn:Hp.
  - cbn [ret written]. repeat split; intros; congruence.
  - destruct (rewrite_all content [] (p :: ps)) as [c1 out1].
    destruct (Py.count title_bar c1); cbn [ret written];
      repeat split; intros; congruence.
Qed.

(** The text that every match of the gate pattern holds. *)
Lemma gate_match_holds_literal t g :
  derives gate_re t [] g ->
  contains (lit "process.platform!=='darwin'?{status:'") t = true.
Proof.
  intros D.
  destruct (derives_gate _ _ D) as (ws & nm & ws' & kind & -> & _).
  apply contains_iff.
  exists (lit "function" ++ ws ++ nm ++ lit "(){return" ++ ws'), (kind ++ lit "'").
  now rewrite <- !app_assoc.
Qed.

Lemma contains_trans (a b c : str) :
  contains a b = true -> contains b c = true -> contains a c = true.
Proof.
  rewrite !contains_iff. intros (x & y & ->) (u & v & ->).
  exists (u ++ x), (y ++ v). now rewrite <- !app_assoc.
Qed.

Lemma contains_char (sub s : str) (c : chr) :
  In c sub -> contains sub s = true -> In c s.
Proof.
  intros Hc H. apply contains_iff in H as (a & b & ->).
  apply in_or_app. right. apply in_or_app. now left.
Qed.

(** X12.  A buffer without the text of the platform test has no gated function
    for the script: the run fails with the error, exit status 1, and writes
    nothing.  The replacement that the script writes for a function is such
    a buffer: a run on a file made of one patched function fails, whatever
    the name of the function. *)
Theorem no_platform_test_no_patch (prog filepath content : str)
        (rest : list str) :
  (contains (lit "process.platform!=='darwin'?{status:'") content = false ->
   patch_file filepath content
   = InjectBridge.failed
       [lit "ERROR: No platform-gated functions found in " ++ filepath] /\
   exit_status (EnableCowork.main uni_alnum (prog :: filepath :: rest) content)
   = 1%Z)
  /\
  (forall name,
     forallb is_word name = true ->
     patch_file filepath (replacement_for name)
     = InjectBridge.failed
         [lit "ERROR: No platform-gated functions found in " ++ filepath]).
Proof.
  assert (Hfail : forall c,
             contains (lit "process.platform!=='darwin'?{status:'") c = false ->
             patch_file filepath c
             = InjectBridge.failed
                 [lit "ERROR: No platform-gated functions found in " ++ filepath]).
  { intros c Hno.
    apply (PipelineFacts.patch_file_no_patches uni_alnum).
    unfold EnableCowork.collect_patches.
    destruct (finditer gate_re c) as [|m l] eqn:Hf; [reflexivity|].
    exfalso.
    destruct (finditer_from_sound gate_re c 0 0 m) as (pre & t & post & Hc & _ & D).
    { unfold Re.finditer in Hf. rewrite Hf. now left. }
    apply gate_match_holds_literal in D.
    assert (Hin : contains t c = true)
      by (apply contains_iff; now exists pre, post).
    rewrite (contains_trans _ _ _ D Hin) in Hno. discriminate. }
  split.
  - intros Hno. split; [now apply Hfail|].
    unfold EnableCowork.main. now rewrite (Hfail _ Hno).
  - intros name Hw. apply Hfail.
    destruct (contains (lit "process.platform!=='darwin'?{status:'")
                (replacement_for name)) eqn:E; [exfalso | reflexivity].
    assert (Hbang : In 33%N (replacement_for name)).
    { apply (contains_char _ _ 33%N) in E; [exact E|].
      vm_compute. tauto. }
    unfold replacement_for in Hbang.
    apply in_app_or in Hbang as [Hb|Hb];
      [revert Hb; vm_compute; intuition discriminate|].
    apply in_app_or in Hb as [Hb|Hb];
      [|revert Hb; vm_compute; intuition discriminate].
    rewrite forallb_forall in Hw. specialize (Hw _ Hb).
    discriminate Hw.
Qed.

End Unicode.

End PipelineMore.

(** ** More on the runs of inject-cowork-bridge.py *)

Module InjectorMore.

Import PyFacts InjectBridge Spec ReFacts PatternFacts PipelineFacts
       InjectorFacts IdempotenceFacts RewriterMore.

Section Unicode.

Variable uni_alnum : chr -> bool.

Local Abbreviation derives := (Spec.derives uni_alnum).
Local Abbreviation search := (Re.search uni_alnum).
Local Abbreviation patch_mainview := (InjectBridge.patch_mainview uni_alnum).

(** [search] finds a match whenever the pattern matches somewhere. *)
Lemma search_none_iff r content :
  search r content = None <->
  forall pre t post g, content = pre ++ t ++ post -> ~ derives r t [] g.
Proof.
  split.
  - intros H. exact (search_from_none uni_alnum r content 0 H).
  - intros H. destruct (search r content) as [m|] eqn:E; [exfalso | reflexivity].
    apply search_sound in E as (pre & t & post & Hc & _ & _ & D & _).
    exact (H pre t post _ Hc D).
Qed.

(** X13.  A run that fails writes nothing.  A run that writes has succeeded on a
    buffer without [ClaudeVM], and what it writes holds [ClaudeVM]. *)
Theorem patch_mainview_writes (filepath content : str) :
  (ret (patch_mainview filepath content) = false ->
   written (patch_mainview filepath content) = None /\
   file_after content (patch_mainview filepath content) = content)
  /\
  (forall w,
     written (patch_mainview filepath content) = Some w ->
     ret (patch_mainview filepath content) = true /\
     contains (lit "ClaudeVM") content = false /\
     contains (lit "ClaudeVM") w = true).
Proof.
  split.
  - unfold InjectBridge.patch_mainview, file_after.
    destruct (contains (lit "ClaudeVM") content); [discriminate|].
    destruct (search uuid_re content); [|now split].
    destruct (search ipc_re content); [|now split].
    destruct (search anchor_re content); [|now split].
    destruct (fix_process _ _). discriminate.
  - intros w Hw.
    assert (Hret : ret (patch_mainview filepath content) = true).
    { revert Hw. unfold InjectBridge.patch_mainview.
      destruct (contains (lit "ClaudeVM") content); [discriminate|].
      destruct (search uuid_re content); [|discriminate].
      destruct (search ipc_re content); [|discriminate].
      destruct (search anchor_re content); [|discriminate].
      now destruct (fix_process _ _). }
    split; [exact Hret|]. split.
    + revert Hw. unfold InjectBridge.patch_mainview.
      now destruct (contains (lit "ClaudeVM") content).
    + pose proof (patch_mainview_leaves_marker uni_alnum filepath content Hret)
        as Hm.
      unfold file_after in Hm. now rewrite Hw in Hm.
Qed.

(** X14.  The injection only adds text: what a successful injection writes is
    longer than what was read by the synthesized code and its separator, and
    by the 35 characters of the platform override when the secondary pass
    prints its line. *)
Theorem injection_only_adds (filepath content : str)
        (uuid_match ipc_match m : rmatch) :
  contains (lit "ClaudeVM") content = false ->
  search uuid_re content = Some uuid_match ->
  search ipc_re content = Some ipc_match ->
  search anchor_re content = Some m ->
  let uuid := group 1 uuid_match in
  let ipc_var := group 1 ipc_match in
  let code := inject_code uuid ipc_var (group 2 m) in
  let content1 := inject_bridge uuid ipc_var (group 2 m) (group 1 m) content in
  exists w,
    written (patch_mainview filepath content) = Some w /\
    len content1 = len content + len code + 1 /\
    len w = len content1 + 35 * List.length (snd (fix_process ipc_var content1)).
Proof.
  intros Hc Hu Hi Ha uuid ipc_var code content1.
  destruct (patch_mainview_success uni_alnum filepath content _ _ _
              Hc Hu Hi Ha) as [_ Hw].
  fold uuid ipc_var content1 in Hw.
  exists (fst (fix_process ipc_var content1)).
  split; [exact Hw|].
  destruct (inject_bridge_splice uni_alnum content m uuid ipc_var Ha)
    as (pre & post & Hcontent & _ & _ & Hsp).
  fold content1 code in Hsp.
  split.
  - apply (f_equal len) in Hcontent. rewrite Hsp. unfold len in *.
    rewrite !length_app in *. simpl. lia.
  - unfold fix_process.
    destruct (contains (process_expose ipc_var) content1
              && negb (contains (process_fix ipc_var) content1)) eqn:Hcond;
      cbn [fst snd List.length]; [|lia].
    apply andb_true_iff in Hcond as [He _].
    destruct (replace1_splice _ (process_fix ipc_var) _ He)
      as (a & b & Hab & _ & ->).
    apply (f_equal len) in Hab. unfold process_fix, len in *.
    rewrite !length_app in *. simpl. lia.
Qed.

(** X15.  A buffer that has neither [ClaudeVM] nor the EIPC message prefix makes
    the run fail with the UUID error; a buffer that has neither [ClaudeVM]
    nor an [exposeInMainWorld] call of the context bridge makes the run
    fail.  Nothing is written in either case. *)
Theorem missing_text_fails (filepath content : str) :
  contains (lit "ClaudeVM") content = false ->
  (contains (lit "$eipc_message$_") content = false ->
   patch_mainview filepath content
   = failed [lit "ERROR: Could not extract EIPC UUID from " ++ filepath])
  /\
  (contains (lit ".contextBridge.exposeInMainWorld(") content = false ->
   ret (patch_mainview filepath content) = false /\
   written (patch_mainview filepath content) = None).
Proof.
  intros Hc. split.
  - intros Hno.
    assert (Hu : search uuid_re content = None).
    { apply search_none_iff. intros pre t post g Heq D.
      destruct (derives_uuid _ _ _ D) as (u & -> & _).
      assert (contains (lit "$eipc_message$_") content = true).
      { apply contains_iff. exists pre, (u ++ post).
        now rewrite Heq, <- !app_assoc. }
      congruence. }
    unfold InjectBridge.patch_mainview. now rewrite Hc, Hu.
  - intros Hno.
    assert (Ha : search anchor_re content = None).
    { apply search_none_iff. intros pre t post g Heq D.
      destruct (derives_anchor _ _ _ D) as (x & y & z & -> & _).
      assert (contains (lit ".contextBridge.exposeInMainWorld(") content = true).
      { apply contains_iff.
        exists (pre ++ lit "Object.keys(" ++ x ++ lit ").forEach(" ++ y
                ++ lit "=>" ++ z),
               (y ++ lit "," ++ x ++ lit "[" ++ y ++ lit "]))" ++ post).
        now rewrite Heq, <- !app_assoc. }
      congruence. }
    unfold InjectBridge.patch_mainview. rewrite Hc, Ha.
    destruct (search uuid_re content); [|now split].
    destruct (search ipc_re content); now split.
Qed.

(** X16.  The entry points: without a file argument each script prints its usage
    text and exits with status 1 without reading or writing a file; with
    one, the exit status is 0 exactly when the patch function returned
    [True], and the process prints and writes what the patch function
    did. *)
Theorem main_exit_status (argv : list str) (content : str) :
  (List.length argv < 2 ->
   EnableCowork.main uni_alnum argv content
   = {| exit_status := 1; stdout := [EnableCowork.doc]; file_write := None |} /\
   main uni_alnum argv content
   = {| exit_status := 1; stdout := [doc]; file_write := None |})
  /\
  (forall filepath,
     nth_error argv 1 = Some filepath ->
     let r1 := EnableCowork.patch_file uni_alnum filepath content in
     let r2 := patch_mainview filepath content in
     (exit_status (EnableCowork.main uni_alnum argv content) = 0%Z
      <-> ret r1 = true) /\
     stdout (EnableCowork.main uni_alnum argv content) = printed r1 /\
     file_write (EnableCowork.main uni_alnum argv content) = written r1 /\
     (exit_status (main uni_alnum argv content) = 0%Z <-> ret r2 = true) /\
     stdout (main uni_alnum argv content) = printed r2 /\
     file_write (main uni_alnum argv content) = written r2).
Proof.
  split.
  - intros H. destruct argv as [|a [|b l]]; simpl in H; try lia; now split.
  - intros filepath H. destruct argv as [|a [|b l]]; try discriminate.
    simpl in H. injection H as ->. cbv zeta.
    unfold EnableCowork.main, main, exit_of. cbn [exit_status stdout file_write].
    destruct (ret (EnableCowork.patch_file uni_alnum filepath content));
      destruct (ret (patch_mainview filepath content));
      repeat split; intros; congruence.
Qed.

End Unicode.

End InjectorMore.

(** ** enable-cowork.py on one gated function *)

Module SingleFunction.

Import PyFacts EnableCowork Spec ReFacts PatternFacts ExtractorFacts
       TemplateFacts RewriterMore PipelineMore.

(** A run of characters of a class, ended by a character out of the class,
    is read in one way only. *)
Lemma span_unique (p : chr -> bool) : forall a1 a b1 b c1 c,
  forallb p a1 = true -> forallb p a = true ->
  p c1 = false -> p c = false ->
  a1 ++ c1 :: b1 = a ++ c :: b ->
  a1 = a /\ c1 = c /\ b1 = b.
Proof.
  induction a1 as [|x a1 IH]; intros [|y a] b1 b c1 c H1 H Hc1 Hc E;
    simpl in *.
  - now injection E as -> ->.
  - injection E as -> _. apply andb_true_iff in H as [H _]. congruence.
  - injection E as -> _. apply andb_true_iff in H1 as [H1 _]. congruence.
  - injection E as -> E.
    apply andb_true_iff in H1 as [_ H1]. apply andb_true_iff in H as [_ H].
    destruct (IH _ _ _ _ _ H1 H Hc1 Hc E) as (-> & -> & ->). now repeat split.
Qed.

Lemma replace_from_skip_all (old new : str) : forall s k,
  len s <= k -> replace_from old new k s = [].
Proof.
  induction s as [|c s IH]; intros k H; [reflexivity|].
  destruct k as [|k]; [unfold len in H; simpl in H; lia|].
  simpl. apply IH. unfold len in *. simpl in H. lia.
Qed.

(** Replacing a text in itself gives the replacement. *)
Lemma replace_self (s new : str) : s <> [] -> replace s new s = new.
Proof.
  intros Hne. destruct s as [|c s]; [congruence|].
  cbn [replace]. rewrite replace_from_cons.
  pose proof (startswith_app (c :: s) []) as E. rewrite app_nil_r in E.
  rewrite E, replace_from_skip_all; [apply app_nil_r|].
  unfold len. simpl. lia.
Qed.

(** A text without the character [c] that is in [a ++ c :: b] is in [a] or
    in [b]. *)
Lemma contains_split (x a b : str) (c : chr) :
  ~ In c x -> contains x (a ++ c :: b) = true ->
  contains x a = true \/ contains x b = true.
Proof.
  intros Hc H. apply contains_iff in H as (u & v & H).
  symmetry in H. apply app_eq_app in H as [l [[Hu Hr] | [Ha Hr]]].
  - destruct l as [|y l].
    + destruct x as [|y x]; [left; apply contains_nil|].
      simpl in Hr. injection Hr as -> _. exfalso. apply Hc. now left.
    + simpl in Hr. injection Hr as _ ->. right.
      apply contains_iff. now exists l, v.
  - symmetry in Hr. apply app_eq_app in Hr as [l2 [[Hx Hv] | [Hl Hv]]].
    + left. apply contains_iff. exists u, l2. now rewrite Ha, Hx.
    + destruct l2 as [|y l2].
      * left. apply contains_iff. exists u, []. rewrite Ha, Hl.
        now rewrite !app_nil_r.
      * simpl in Hv. injection Hv as -> _. exfalso. apply Hc.
        rewrite Hl. apply in_or_app. right. now left.
Qed.

Lemma contains_count (x s : str) (c : chr) :
  contains x s = true ->
  count_occ N.eq_dec x c <= count_occ N.eq_dec s c.
Proof.
  intros H. apply contains_iff in H as (u & v & ->).
  rewrite !count_occ_app.
  eapply Nat.le_trans; [apply Nat.le_add_r | apply Nat.le_add_l].
Qed.

Lemma count_occ_brace_free (s : str) (c : chr) :
  is_brace c = true -> brace_free s = true -> count_occ N.eq_dec s c = 0.
Proof.
  intros Hc. induction s as [|x s IH]; intros H; [reflexivity|].
  apply brace_free_cons in H as [Hx Hs]. simpl.
  destruct (N.eq_dec x c) as [->|_]; [congruence | now apply IH].
Qed.

Lemma span_unique_app (p : chr -> bool) (a1 a b1 b : str) :
  forallb p a1 = true -> forallb p a = true ->
  starts_outside p b1 = true -> starts_outside p b = true ->
  a1 ++ b1 = a ++ b ->
  a1 = a /\ b1 = b.
Proof.
  intros H1 H Hb1 Hb E.
  destruct b1 as [|c1 b1]; [discriminate|].
  destruct b as [|c b]; [discriminate|].
  simpl in Hb1, Hb. apply negb_true_iff in Hb1. apply negb_true_iff in Hb.
  destruct (span_unique p _ _ _ _ _ _ H1 H Hb1 Hb E) as (-> & -> & ->).
  now split.
Qed.

Section Unicode.

Variable uni_alnum : chr -> bool.

Local Abbreviation derives := (Spec.derives uni_alnum).
Local Abbreviation is_word := (Re.is_word uni_alnum).
Local Abbreviation matches := (Re.matches uni_alnum).
Local Abbreviation finditer_from := (Re.finditer_from uni_alnum).
Local Abbreviation patch_file := (EnableCowork.patch_file uni_alnum).
Local Abbreviation collect_patches := (EnableCowork.collect_patches uni_alnum).

(** No white space character is a word character (the Unicode white space
    is not alphanumeric). *)
Hypothesis spaces_not_words : forall c, is_space c = true -> is_word c = false.

Variables ws name ws' kind : str.
Hypothesis ws_spaces : ws <> [] /\ forallb is_space ws = true.
Hypothesis name_word : name <> [] /\ forallb is_word name = true.
Hypothesis ws'_spaces : ws' <> [] /\ forallb is_space ws' = true.
Hypothesis kind_status : kind = lit "unsupported" \/ kind = lit "unavailable".

Lemma word_starts_outside_space (w r : str) :
  w <> [] -> forallb is_word w = true -> starts_outside is_space (w ++ r) = true.
Proof.
  intros Hne Hw. destruct w as [|c w]; [congruence|].
  simpl in Hw. apply andb_true_iff in Hw as [Hc _].
  simpl. apply negb_true_iff.
  destruct (is_space c) eqn:E; [|reflexivity].
  apply spaces_not_words in E. congruence.
Qed.

(** The pattern reads the start of a gated function in one way only. *)
Lemma gate_parse_unique t g rest :
  derives gate_re t [] g ->
  gated_function ws name ws' kind = t ++ rest ->
  g = [(1, name)] /\
  t = lit "function" ++ ws ++ name ++ lit "(){return" ++ ws'
      ++ lit "process.platform!=='darwin'?{status:'" ++ kind ++ lit "'" /\
  rest = lit "}:{status:'supported'}}".
Proof.
  intros D E.
  destruct (derives_gate uni_alnum _ _ D)
    as (ws1 & nm1 & ws1' & kind1 & -> & -> & [Hws1 Hws1s] & [Hnm1 Hnm1w]
        & [Hws1' Hws1's] & Hk1).
  destruct ws_spaces as [_ Hwss]. destruct name_word as [Hnm Hnmw].
  destruct ws'_spaces as [_ Hws's].
  unfold gated_function in E. rewrite <- !app_assoc in E.
  apply app_inv_head in E.
  apply span_unique_app with (p := is_space) in E
    as [<- E]; try assumption; try (now apply word_starts_outside_space).
  apply span_unique_app with (p := is_word) in E
    as [<- E]; try assumption; try reflexivity.
  apply app_inv_head in E.
  apply span_unique_app with (p := is_space) in E
    as [<- E]; try assumption; try reflexivity.
  apply app_inv_head in E.
  assert (Hkind : kind1 = kind /\ rest = lit "}:{status:'supported'}}").
  { destruct kind_status as [-> | ->], Hk1 as [-> | ->];
      try (simpl in E; discriminate E).
    - apply app_inv_head in E.
      apply (app_inv_head (lit "'")) in E. now split.
    - apply app_inv_head in E.
      apply (app_inv_head (lit "'")) in E. now split. }
  destruct Hkind as [-> ->]. now repeat split.
Qed.

Lemma finditer_from_skip r : forall (a : str) pos s,
  finditer_from r (len a) pos (a ++ s) = finditer_from r 0 (pos + len a) s.
Proof.
  induction a as [|c a IH]; intros pos s.
  - simpl. now rewrite Nat.add_0_r.
  - change (len (c :: a)) with (S (len a)). simpl app.
    cbn [Re.finditer_from]. rewrite IH. f_equal. lia.
Qed.

Lemma finditer_from_here r pos c (s rest : str) g l :
  matches r (c :: s) [] = (rest, g) :: l ->
  finditer_from r 0 pos (c :: s)
  = {| m_start := pos; m_end := pos + (len (c :: s) - len rest); m_groups := g |}
    :: finditer_from r (len (c :: s) - len rest - 1) (S pos) s.
Proof. intros E. cbn [Re.finditer_from]. now rewrite E. Qed.

Lemma finditer_after_status pos :
  finditer_from gate_re 0 pos (lit "}:{status:'supported'}}") = [].
Proof. vm_compute. reflexivity. Qed.

(** The matched text of a gated function. *)
Local Abbreviation anchor_text :=
  (lit "function" ++ ws ++ name ++ lit "(){return" ++ ws'
   ++ lit "process.platform!=='darwin'?{status:'" ++ kind ++ lit "'").

Lemma gated_function_split :
  gated_function ws name ws' kind
  = anchor_text ++ lit "}:{status:'supported'}}".
Proof. unfold gated_function. rewrite <- !app_assoc. reflexivity. Qed.

Lemma anchor_derives : derives gate_re anchor_text [] [(1, name)].
Proof.
  destruct ws_spaces as [Hws Hwss]. destruct name_word as [Hnm Hnmw].
  destruct ws'_spaces as [Hws' Hws's].
  unfold gate_re.
  eapply d_cat; [apply d_lit|].
  eapply d_cat; [apply d_plus; assumption|].
  eapply d_cat; [apply d_group; apply d_plus; assumption|].
  eapply d_cat; [apply d_lit|].
  eapply d_cat; [apply d_plus; assumption|].
  eapply d_cat; [apply d_lit|].
  eapply d_cat; [|apply d_lit].
  destruct kind_status as [-> | ->]; [apply d_alt_l | apply d_alt_r]; apply d_lit.
Qed.

(** [finditer] on a gated function: one match, at offset 0, whose group 1
    is the name. *)
Lemma finditer_gated :
  exists e,
    Re.finditer uni_alnum gate_re (gated_function ws name ws' kind)
    = [{| m_start := 0; m_end := e; m_groups := [(1, name)] |}].
Proof.
  unfold Re.finditer.
  assert (Hcons : exists s : str,
             gated_function ws name ws' kind = @cons chr 102%N s)
    by (eexists; reflexivity).
  destruct Hcons as [s Hs].
  pose proof (matches_complete uni_alnum _ _ _ _ anchor_derives
                (lit "}:{status:'supported'}}")) as Hin.
  rewrite <- gated_function_split in Hin.
  destruct (matches gate_re (gated_function ws name ws' kind) [])
    as [|[rest g] l] eqn:E; [contradiction|]. clear Hin.
  destruct (matches_head uni_alnum _ _ _ _ _ E) as (t & Ht & D & Hl).
  destruct (gate_parse_unique _ _ _ D Ht) as (-> & -> & ->).
  rewrite Hs in E |- *.
  rewrite (finditer_from_here _ _ _ _ _ _ _ E).
  eexists. f_equal.
  rewrite <- Hs, Hl.
  assert (Htail : s = tl anchor_text ++ lit "}:{status:'supported'}}").
  { pose proof gated_function_split as Hsp. rewrite Hs in Hsp.
    change anchor_text with (102%N :: tl anchor_text) in Hsp.
    simpl app in Hsp. now injection Hsp. }
  rewrite Htail.
  replace (len anchor_text - 1) with (len (tl anchor_text))
    by (change anchor_text with (102%N :: tl anchor_text) at 2;
        unfold len; simpl; lia).
  rewrite finditer_from_skip. apply finditer_after_status.
Qed.

Lemma class_excludes (p : chr -> bool) (w : str) (c : chr) :
  forallb p w = true -> p c = false -> ~ In c w.
Proof.
  intros Hw Hc Hin. rewrite forallb_forall in Hw.
  specialize (Hw _ Hin). congruence.
Qed.

Lemma pass_app_some (a b : str) d d' :
  pass d a = Some d' -> pass d (a ++ b) = pass d' b.
Proof. intros H. now rewrite pass_app, H. Qed.

Lemma parts_brace_free :
  brace_free ws = true /\ brace_free name = true /\ brace_free ws' = true.
Proof.
  destruct ws_spaces as [_ Hwss]. destruct name_word as [_ Hnmw].
  destruct ws'_spaces as [_ Hws's].
  repeat split.
  - exact (forallb_weaken _ _ _ (is_space_no_brace) Hwss).
  - exact (forallb_weaken _ _ _ (SynthesisFacts.is_word_no_brace uni_alnum) Hnmw).
  - exact (forallb_weaken _ _ _ (is_space_no_brace) Hws's).
Qed.

(** The extractor returns the gated function whole. *)
Lemma extract_gated :
  find_balanced_function (gated_function ws name ws' kind) 0
  = Some (gated_function ws name ws' kind).
Proof.
  destruct parts_brace_free as (Hws & Hnm & Hws').
  assert (HF : gated_function ws name ws' kind
               = (lit "function" ++ ws ++ name ++ lit "(){return" ++ ws'
                  ++ lit "process.platform!=='darwin'?{status:'" ++ kind
                  ++ lit "'}:{status:'supported'}") ++ [close_brace]).
  { unfold gated_function. rewrite <- !app_assoc. reflexivity. }
  rewrite HF. apply block_of_pass.
  rewrite (pass_app_some (lit "function") _ 0 0 eq_refl).
  rewrite (pass_app_some ws _ 0 0 (pass_brace_free _ _ Hws)).
  rewrite (pass_app_some name _ 0 0 (pass_brace_free _ _ Hnm)).
  rewrite (pass_app_some (lit "(){return") _ 0 1 eq_refl).
  rewrite (pass_app_some ws' _ 1 1 (pass_brace_free _ _ Hws')).
  rewrite (pass_app_some (lit "process.platform!=='darwin'?{status:'")
             _ 1 2 eq_refl).
  destruct kind_status as [-> | ->]; reflexivity.
Qed.

(** The replacement is not in the gated function. *)
Lemma replacement_not_in_gated :
  contains (replacement_for name) (gated_function ws name ws' kind) = false.
Proof.
  destruct parts_brace_free as (Hws & Hnm & Hws').
  destruct name_word as [_ Hnmw].
  destruct (contains (replacement_for name) (gated_function ws name ws' kind))
    eqn:E; [exfalso | reflexivity].
  assert (HF : gated_function ws name ws' kind
               = (lit "function" ++ ws ++ name ++ lit "(){return" ++ ws'
                  ++ lit "process.platform")
                 ++ 33%N :: (lit "=='darwin'?{status:'" ++ kind
                             ++ lit "'}:{status:'supported'}}")).
  { unfold gated_function. rewrite <- !app_assoc. reflexivity. }
  rewrite HF in E. apply contains_split in E as [E|E].
  - apply (contains_count _ _ open_brace) in E.
    unfold replacement_for in E. rewrite !count_occ_app in E.
    rewrite !(count_occ_brace_free ws), !(count_occ_brace_free name),
      !(count_occ_brace_free ws') in E by (reflexivity || assumption).
    vm_compute in E. lia.
  - assert (Hf : In 102%N (replacement_for name)) by (now left).
    apply (contains_char _ _ _ Hf) in E.
    destruct kind_status as [-> | ->]; revert E; vm_compute;
      intuition discriminate.
  - unfold replacement_for. intros Hin.
    apply in_app_or in Hin as [Hin|Hin];
      [revert Hin; vm_compute; intuition discriminate|].
    apply in_app_or in Hin as [Hin|Hin];
      [|revert Hin; vm_compute; intuition discriminate].
    exact (class_excludes is_word name 33%N Hnmw eq_refl Hin).
Qed.

(** The replacement holds no title bar option. *)
Lemma replacement_no_title_bar :
  contains title_bar (replacement_for name) = false.
Proof.
  destruct name_word as [_ Hnmw].
  destruct (contains title_bar (replacement_for name)) eqn:E;
    [exfalso | reflexivity].
  assert (Hc : In 44%N title_bar) by (vm_compute; tauto).
  apply (contains_char _ _ _ Hc) in E.
  unfold replacement_for in E.
  apply in_app_or in E as [Hin|Hin];
    [revert Hin; vm_compute; intuition discriminate|].
  apply in_app_or in Hin as [Hin|Hin];
    [|revert Hin; vm_compute; intuition discriminate].
  exact (class_excludes is_word name 44%N Hnmw eq_refl Hin).
Qed.

(** X17.  A file that is one gated function, whatever its name, the white space
    after [function] and [return] and its status: the run replaces it by
    the function of the same name that returns the supported status, prints
    the line for that name and the count of one, and succeeds. *)
Theorem patch_single_gated_function (filepath : str) :
  patch_file filepath (gated_function ws name ws' kind)
  = {| ret := true;
       printed := [report_line name Patched;
                   lit "SUCCESS: Patched 1 function(s) in " ++ filepath];
       written := Some (replacement_for name) |}.
Proof.
  unfold EnableCowork.patch_file, EnableCowork.collect_patches.
  destruct finditer_gated as [e ->]. cbn [flat_map].
  assert (Hp : patch_of (gated_function ws name ws' kind)
                 {| m_start := 0; m_end := e; m_groups := [(1, name)] |}
               = [(gated_function ws name ws' kind, replacement_for name, name)]).
  { unfold patch_of. cbn [m_start]. rewrite extract_gated. reflexivity. }
  rewrite Hp. cbn [app rewrite_all]. unfold rewrite.
  rewrite replacement_not_in_gated.
  rewrite replace_self by discriminate.
  cbn [snd rewrite_all app].
  assert (Hn : Py.count title_bar (replacement_for name) = 0).
  { apply count_zero_iff; [discriminate | apply replacement_no_title_bar]. }
  rewrite Hn. reflexivity.
Qed.

End Unicode.

End SingleFunction.

(** ** The theorems at concrete buffers *)

Module Examples.

Import PyFacts Spec InjectBridge.

Lemma already_patched_short_circuit_witness :
  exit_status (main no_unicode [lit "inject-cowork-bridge.py"; lit "mainView.js"]
                 (lit "C.ClaudeVM={}")) = 0%Z.
Proof.
  apply (PipelineFacts.already_patched_short_circuit no_unicode
           (lit "inject-cowork-bridge.py") (lit "mainView.js")
           (lit "C.ClaudeVM={}") []).
  reflexivity.
Defined.

Lemma pipeline_failure_no_write_witness :
  file_after (lit "function f(){}")
    (EnableCowork.patch_file no_unicode (lit "index.js") (lit "function f(){}"))
  = lit "function f(){}" /\
  file_after (lit "var x=1")
    (patch_mainview no_unicode (lit "mainView.js") (lit "var x=1"))
  = lit "var x=1" /\
  file_after (lit "$eipc_message$_01234567-89ab-cdef-0123-456789abcdef")
    (patch_mainview no_unicode (lit "mainView.js")
       (lit "$eipc_message$_01234567-89ab-cdef-0123-456789abcdef"))
  = lit "$eipc_message$_01234567-89ab-cdef-0123-456789abcdef" /\
  file_after (lit "o.ipcRenderer.invoke('$eipc_message$_01234567-89ab-cdef-0123-456789abcdef')")
    (patch_mainview no_unicode (lit "mainView.js")
       (lit "o.ipcRenderer.invoke('$eipc_message$_01234567-89ab-cdef-0123-456789abcdef')"))
  = lit "o.ipcRenderer.invoke('$eipc_message$_01234567-89ab-cdef-0123-456789abcdef')".
Proof.
  split; [|split; [|split]].
  - apply (proj1 (PipelineFacts.pipeline_failure_no_write no_unicode
                    (lit "enable-cowork.py") (lit "index.js")
                    (lit "function f(){}") [])).
    reflexivity.
  - apply (proj1 (proj2 (PipelineFacts.pipeline_failure_no_write no_unicode
                    (lit "inject-cowork-bridge.py") (lit "mainView.js")
                    (lit "var x=1") []))); reflexivity.
  - eapply (proj1 (proj2 (proj2 (PipelineFacts.pipeline_failure_no_write
                    no_unicode (lit "inject-cowork-bridge.py")
                    (lit "mainView.js")
                    (lit "$eipc_message$_01234567-89ab-cdef-0123-456789abcdef")
                    [])))); reflexivity.
  - eapply (proj2 (proj2 (proj2 (PipelineFacts.pipeline_failure_no_write
                    no_unicode (lit "inject-cowork-bridge.py")
                    (lit "mainView.js")
                    (lit "o.ipcRenderer.invoke('$eipc_message$_01234567-89ab-cdef-0123-456789abcdef')")
                    [])))); reflexivity.
Defined.

Lemma inject_before_anchor_witness :
  exists pre post,
    main_view = pre ++ lit "Object.keys(C).forEach(k=>o.contextBridge.exposeInMainWorld(k,C[k]))" ++ post /\
    len pre = 86.
Proof.
  destruct (InjectorFacts.inject_before_anchor no_unicode (lit "mainView.js")
              main_view
              {| m_start := 28; m_end := 79;
                 m_groups := [(1, lit "01234567-89ab-cdef-0123-456789abcdef")] |}
              {| m_start := 6; m_end := 42; m_groups := [(1, lit "o")] |}
              {| m_start := 86; m_end := 154;
                 m_groups :=
                   [(1, lit "Object.keys(C).forEach(k=>o.contextBridge.exposeInMainWorld(k,C[k]))");
                    (4, lit "o"); (3, lit "k"); (2, lit "C")] |}
              eq_refl eq_refl eq_refl eq_refl)
    as (pre & post & Hc & Hs & _).
  exists pre, post. split; [exact Hc | now rewrite <- Hs].
Defined.

Lemma bridge_code_binds_identifiers_witness :
  depth_balanced
    (inject_code (lit "01234567-89ab-cdef-0123-456789abcdef") (lit "o") (lit "C")).
Proof.
  apply (SynthesisFacts.bridge_code_binds_identifiers no_unicode main_view
           {| m_start := 28; m_end := 79;
              m_groups := [(1, lit "01234567-89ab-cdef-0123-456789abcdef")] |}
           {| m_start := 6; m_end := 42; m_groups := [(1, lit "o")] |}
           {| m_start := 86; m_end := 154;
              m_groups :=
                [(1, lit "Object.keys(C).forEach(k=>o.contextBridge.exposeInMainWorld(k,C[k]))");
                 (4, lit "o"); (3, lit "k"); (2, lit "C")] |}
           eq_refl eq_refl eq_refl).
Defined.

Lemma patch_mainview_idempotent_witness :
  ret (patch_mainview no_unicode (lit "mainView.js")
         (file_after main_view
            (patch_mainview no_unicode (lit "mainView.js") main_view)))
  = true.
Proof.
  destruct (IdempotenceFacts.patch_mainview_idempotent no_unicode
              (lit "mainView.js") main_view eq_refl) as [H _].
  now rewrite H.
Defined.

Lemma find_balanced_header_witness :
  EnableCowork.find_balanced_function (lit "a;function f(){return{}};b") 2
  = Some (lit "function f(){return{}}").
Proof.
  apply (ExtractorFacts.find_balanced_header 2 (lit "a;") (lit "function f()")
           (lit "{return{}}") (lit ";b")).
  - repeat (apply Forall_cons; [reflexivity|]). apply Forall_nil.
  - apply (nested_intro (w := lit "return{}")).
    repeat (apply bal_chr; [reflexivity|]).
    apply (bal_pair (n := 0) (m := 0) (w := []) (w' := [])); apply bal_nil.
Defined.

Lemma patch_file_title_bar_witness :
  written (EnableCowork.patch_file no_unicode (lit "index.js") gated_sample)
  = Some (lit "x;function isFoo(){return{status:'supported'}};y").
Proof.
  destruct (PipelineMore.patch_file_title_bar no_unicode (lit "index.js")
              gated_sample) as [H _].
  - discriminate.
  - rewrite H. reflexivity.
Defined.

Lemma collected_patches_whole_functions_witness :
  lit "isFoo" <> [] /\ forallb (is_word no_unicode) (lit "isFoo") = true.
Proof.
  apply (PipelineMore.collected_patches_whole_functions no_unicode gated_sample
           (lit "function isFoo(){return process.platform!=='darwin'?{status:'unsupported'}:{status:'supported'}}")
           (lit "function isFoo(){return{status:'supported'}}")
           (lit "isFoo")).
  left. reflexivity.
Defined.

Lemma patch_file_writes_iff_success_witness :
  written (EnableCowork.patch_file no_unicode (lit "index.js") gated_sample)
  <> None.
Proof.
  apply (proj1 (proj2 (PipelineMore.patch_file_writes_iff_success no_unicode
                         (lit "index.js") gated_sample))).
  reflexivity.
Defined.

Lemma no_platform_test_no_patch_witness :
  exit_status (EnableCowork.main no_unicode
                 [lit "enable-cowork.py"; lit "index.js"]
                 (lit "function f(){return 1}")) = 1%Z /\
  ret (EnableCowork.patch_file no_unicode (lit "index.js")
         (EnableCowork.replacement_for (lit "isFoo"))) = false.
Proof.
  split.
  - apply (proj1 (PipelineMore.no_platform_test_no_patch no_unicode
                    (lit "enable-cowork.py") (lit "index.js")
                    (lit "function f(){return 1}") [])).
    reflexivity.
  - rewrite (proj2 (PipelineMore.no_platform_test_no_patch no_unicode
                      (lit "enable-cowork.py") (lit "index.js") [] [])
               (lit "isFoo") eq_refl).
    reflexivity.
Defined.

Lemma patch_mainview_writes_witness :
  written (patch_mainview no_unicode (lit "mainView.js") (lit "var x=1")) = None.
Proof.
  apply (proj1 (InjectorMore.patch_mainview_writes no_unicode
                  (lit "mainView.js") (lit "var x=1"))).
  reflexivity.
Defined.

Lemma injection_only_adds_witness :
  exists w,
    written (patch_mainview no_unicode (lit "mainView.js") main_view) = Some w.
Proof.
  destruct (InjectorMore.injection_only_adds no_unicode (lit "mainView.js")
              main_view
              {| m_start := 28; m_end := 79;
                 m_groups := [(1, lit "01234567-89ab-cdef-0123-456789abcdef")] |}
              {| m_start := 6; m_end := 42; m_groups := [(1, lit "o")] |}
              {| m_start := 86; m_end := 154;
                 m_groups :=
                   [(1, lit "Object.keys(C).forEach(k=>o.contextBridge.exposeInMainWorld(k,C[k]))");
                    (4, lit "o"); (3, lit "k"); (2, lit "C")] |}
              eq_refl eq_refl eq_refl eq_refl) as (w & Hw & _).
  now exists w.
Defined.

Lemma missing_text_fails_witness :
  ret (patch_mainview no_unicode (lit "mainView.js") (lit "var x=1")) = false.
Proof.
  apply (proj2 (InjectorMore.missing_text_fails no_unicode (lit "mainView.js")
                  (lit "var x=1") eq_refl)).
  reflexivity.
Defined.

Lemma main_exit_status_witness :
  main no_unicode [lit "inject-cowork-bridge.py"] []
  = {| exit_status := 1; stdout := [doc]; file_write := None |} /\
  (exit_status (main no_unicode [lit "inject-cowork-bridge.py"; lit "mainView.js"]
                  main_view) = 0%Z
   <-> ret (patch_mainview no_unicode (lit "mainView.js") main_view) = true).
Proof.
  split.
  - apply (proj1 (InjectorMore.main_exit_status no_unicode
                    [lit "inject-cowork-bridge.py"] [])).
    simpl. lia.
  - apply (proj2 (InjectorMore.main_exit_status no_unicode
                    [lit "inject-cowork-bridge.py"; lit "mainView.js"] main_view)
             (lit "mainView.js") eq_refl).
Defined.

(** With the table for ASCII buffers no white space is a word character. *)
Lemma no_unicode_spaces_not_words (c : chr) :
  is_space c = true -> is_word no_unicode c = false.
Proof.
  intros H. unfold is_word, no_unicode.
  destruct (N.ltb_spec c 128) as [Hlt|_]; [|reflexivity].
  assert (Hc : (c <= 32)%N).
  { unfold is_space, between in H.
    repeat (apply orb_true_iff in H as [H|H]);
      repeat match goal with
        | H : (_ && _)%bool = true |- _ => apply andb_true_iff in H as [? ?]
        | H : N.leb _ _ = true |- _ => apply N.leb_le in H
        | H : N.eqb _ _ = true |- _ => apply N.eqb_eq in H
        end; lia. }
  unfold ascii_alnum, between.
  repeat match goal with
    | |- context [N.leb ?a ?b] => destruct (N.leb_spec a b); try lia
    | |- context [N.eqb ?a ?b] => destruct (N.eqb_spec a b); try lia
    end; reflexivity.
Qed.

Lemma patch_single_gated_function_witness :
  written (EnableCowork.patch_file no_unicode (lit "index.js")
             (gated_function (lit " ") (lit "isFoo") (lit " ") (lit "unavailable")))
  = Some (lit "function isFoo(){return{status:'supported'}}").
Proof.
  rewrite (SingleFunction.patch_single_gated_function no_unicode
             no_unicode_spaces_not_words (lit " ") (lit "isFoo") (lit " ")
             (lit "unavailable")).
  - reflexivity.
  - split; [discriminate | reflexivity].
  - split; [discriminate | reflexivity].
  - split; [discriminate | reflexivity].
  - right. reflexivity.
Defined.

End Examples.
